(** * Rate limiting service: sliding window, violations and bans

    A shallow embedding of the decision engine of [index.js]: the client
    store, [pruneOldRequests], [initRecord], [checkRateLimit], the periodic
    cleanup pass and the administrative handlers, followed by the properties
    of the engine.  Routing, header handling and the read-only status and
    snapshot handlers are left out.

    Modelling conventions.
    - JavaScript numbers that hold timestamps, counters and HTTP codes are
      integers far below 2^53; they are modelled as [Z].
    - [clientStore] is a plain object used as a dictionary from client key to
      record; it is modelled as a finite map [gmap string ClientRecord].  Keys
      are client addresses, so property lookup is finite-map lookup (names
      inherited from [Object.prototype] are not client addresses).
    - A record is only ever reachable through its own key, so the in-place
      mutation of [clientStore[key]] is a functional update of that key.
    - [now()] reads [Date.now()].  Each call site's reading is an explicit
      parameter of the function that performs it, so a function that reads the
      clock twice takes two readings. *)

From Stdlib Require Import ZArith Lia Ascii.
From stdpp Require Import gmap strings list fin_maps pretty sorting.

Open Scope Z_scope.

(** ** Configuration *)

Definition PORT : Z := 3000.
Definition WINDOW_MS : Z := 60 * 1000.
Definition MAX_REQUESTS : Z := 10.
Definition BAN_THRESHOLD : Z := 3.
Definition BAN_DURATION_MS : Z := 5 * 60 * 1000.

(** ** The in-memory store *)

Record ClientRecord := mkRecord {
  requests : list Z;
  violations : Z;
  banned : bool;
  bannedUntil : Z
}.

Abbreviation Store := (gmap string ClientRecord).

(** ** JavaScript helpers *)

(** [Math.ceil(a / b)] for integers [a] and a positive integer [b]. *)
Definition Math_ceil_div (a b : Z) : Z := - ((- a) / b).

(** [x || d] where [x] is a number or [undefined]: [undefined] and [0] are
    falsy. *)
Definition js_or (x : option Z) (d : Z) : Z :=
  match x with
  | Some v => if v =? 0 then d else v
  | None => d
  end.

(** ** Helpers of the service *)

(** The loop of [pruneOldRequests]: [reqs] is the part of [record.requests]
    not yet visited, [fresh] the array built so far. *)
Fixpoint pruneLoop (cutoff : Z) (reqs fresh : list Z) : list Z :=
  match reqs with
  | [] => fresh
  | t :: rest =>
      pruneLoop cutoff rest (if cutoff <? t then fresh ++ [t] else fresh)
  end.

(** [pruneOldRequests(record)], where [now] is the reading of the clock the
    function takes. *)
Definition pruneOldRequests (now : Z) (record : ClientRecord) : ClientRecord :=
  let cutoff := now - WINDOW_MS in
  let fresh := pruneLoop cutoff (requests record) [] in
  {| requests := fresh;
     violations := violations record;
     banned := banned record;
     bannedUntil := bannedUntil record |}.

Definition initRecord : ClientRecord :=
  {| requests := []; violations := 0; banned := false; bannedUntil := 0 |}.

(** ** Rate limiter core *)

Record Decision := mkDecision {
  allowed : bool;
  status : Z;
  remaining : Z;
  resetIn : Z;
  reported_violations : option Z;
  message : string
}.

(** [checkRateLimit(clientKey)].  [current] is the reading [var current =
    now()]; [pruneNow] is the reading taken inside [pruneOldRequests]. *)
Definition checkRateLimit (clientKey : string) (current pruneNow : Z)
    (clientStore : Store) : Store * Decision :=
  let '(record, clientStore) :=
    match clientStore !! clientKey with
    | Some record => (record, clientStore)
    | None => (initRecord, <[clientKey := initRecord]> clientStore)
    end in
  if banned record && (current <? bannedUntil record) then
    (clientStore,
     {| allowed := false;
        status := 403;
        remaining := 0;
        resetIn := Math_ceil_div (bannedUntil record - current) 1000;
        reported_violations := None;
        message := "Client is banned. Too many violations." |})
  else
    (* an expired ban resets the client *)
    let record := if banned record then initRecord else record in
    let record := pruneOldRequests pruneNow record in
    let count := Z.of_nat (length (requests record)) in
    if MAX_REQUESTS <=? count then
      let record :=
        {| requests := requests record;
           violations := violations record + 1;
           banned := banned record;
           bannedUntil := bannedUntil record |} in
      if BAN_THRESHOLD <=? violations record then
        let record :=
          {| requests := requests record;
             violations := violations record;
             banned := true;
             bannedUntil := current + BAN_DURATION_MS |} in
        (<[clientKey := record]> clientStore,
         {| allowed := false;
            status := 403;
            remaining := 0;
            resetIn := Math_ceil_div BAN_DURATION_MS 1000;
            reported_violations := None;
            message := "Too many violations. Client banned for " +:+
                       pretty (BAN_DURATION_MS / 1000 / 60) +:+ " minutes." |})
      else
        let oldestRequest := js_or (head (requests record)) current in
        let resetIn :=
          Math_ceil_div (oldestRequest + WINDOW_MS - current) 1000 in
        (<[clientKey := record]> clientStore,
         {| allowed := false;
            status := 429;
            remaining := 0;
            resetIn := resetIn;
            reported_violations := Some (violations record);
            message := "Rate limit exceeded. " +:+
                       pretty (BAN_THRESHOLD - violations record) +:+
                       " violation(s) remaining before ban." |})
    else
      let record :=
        {| requests := requests record ++ [current];
           violations := violations record;
           banned := banned record;
           bannedUntil := bannedUntil record |} in
      (* [record.requests[0]] after the push: the array is not empty *)
      let oldestAllowed := default current (head (requests record)) in
      let windowResetIn :=
        Math_ceil_div (oldestAllowed + WINDOW_MS - current) 1000 in
      (<[clientKey := record]> clientStore,
       {| allowed := true;
          status := 200;
          remaining := MAX_REQUESTS - Z.of_nat (length (requests record));
          resetIn := windowResetIn;
          reported_violations := None;
          message := "Request allowed." |}).

(** ** Route handlers that change the store *)

Inductive Payload :=
  | ErrorBody (error : string)
  | MessageBody (message : string)
  | ClearedBody (message : string) (count : Z).

Record Response := mkResponse {
  statusCode : Z;
  payload : Payload
}.

(** [sendJSON(res, statusCode, payload)]: the response written to [res]. *)
Definition sendJSON (statusCode : Z) (payload : Payload) : Response :=
  {| statusCode := statusCode; payload := payload |}.

Definition handleUnban (clientKey : string) (clientStore : Store)
    : Store * Response :=
  match clientStore !! clientKey with
  | None =>
      (clientStore,
       sendJSON 404 (ErrorBody ("Client not found: " +:+ clientKey)))
  | Some _ =>
      (<[clientKey := initRecord]> clientStore,
       sendJSON 200 (MessageBody ("Client unbanned: " +:+ clientKey)))
  end.

Definition handleReset (clientKey : string) (clientStore : Store)
    : Store * Response :=
  match clientStore !! clientKey with
  | None =>
      (clientStore,
       sendJSON 404 (ErrorBody ("Client not found: " +:+ clientKey)))
  | Some _ =>
      (delete clientKey clientStore,
       sendJSON 200 (MessageBody ("Client record deleted: " +:+ clientKey)))
  end.

Definition handleResetAll (clientStore : Store) : Store * Response :=
  let count := Z.of_nat (size clientStore) in
  (∅, sendJSON 200 (ClearedBody "All records cleared." count)).

(** ** Periodic cleanup *)

(** One iteration of the [for (key in clientStore)] loop of the cleanup
    callback.  The accumulator is the store being mutated and the local
    counter [removed]; [record] is [clientStore[key]], which no earlier
    iteration has touched, since an iteration only writes its own key.
    [pruneNow key] is the reading of the clock [pruneOldRequests] takes in
    the iteration of [key]. *)
Definition cleanupStep (now_ts : Z) (pruneNow : string → Z)
    (key : string) (record : ClientRecord) (acc : Store * Z) : Store * Z :=
  let '(clientStore, removed) := acc in
  if banned record && (bannedUntil record <=? now_ts) then
    (delete key clientStore, removed + 1)
  else
    let record := pruneOldRequests (pruneNow key) record in
    if (Z.of_nat (length (requests record)) =? 0)
       && (violations record =? 0) && negb (banned record) then
      (delete key clientStore, removed + 1)
    else
      (<[key := record]> clientStore, removed).

(** The body of the callback of [cleanupInterval] up to the log line: the
    store it leaves and the final value of [removed]. *)
Definition cleanupPass (now_ts : Z) (pruneNow : string → Z)
    (clientStore : Store) : Store * Z :=
  map_fold (cleanupStep now_ts pruneNow) (clientStore, 0) clientStore.

(** The line the callback prints, if any. *)
Definition cleanupLog (removed : Z) : option string :=
  if 0 <? removed then
    Some ("[Cleanup] Removed " +:+ pretty removed +:+
          " stale client record(s).")
  else None.

(** ** The interface of the engine

    A call of the engine happens at one instant: every reading of the clock
    during the call gives the same [now]. *)

Definition evaluate (clientKey : string) (now : Z) (clientStore : Store)
    : Store * Decision :=
  checkRateLimit clientKey now now clientStore.

Definition sweep (now : Z) (clientStore : Store) : Store * Z :=
  cleanupPass now (λ _, now) clientStore.

Definition unban := handleUnban.
Definition reset := handleReset.
Definition resetAll := handleResetAll.

Inductive Call :=
  | Evaluate (clientKey : string) (now : Z)
  | Sweep (now : Z)
  | Unban (clientKey : string)
  | Reset (clientKey : string)
  | ResetAll.

Inductive Reply :=
  | Decided (d : Decision)
  | Swept (removed : Z)
  | Answered (r : Response).

Definition call (c : Call) (clientStore : Store) : Store * Reply :=
  match c with
  | Evaluate clientKey now =>
      let '(s, d) := evaluate clientKey now clientStore in (s, Decided d)
  | Sweep now =>
      let '(s, n) := sweep now clientStore in (s, Swept n)
  | Unban clientKey =>
      let '(s, r) := unban clientKey clientStore in (s, Answered r)
  | Reset clientKey =>
      let '(s, r) := reset clientKey clientStore in (s, Answered r)
  | ResetAll =>
      let '(s, r) := resetAll clientStore in (s, Answered r)
  end.

(** A run: the calls are served one after the other. *)
Fixpoint run (calls : list Call) (clientStore : Store) : Store * list Reply :=
  match calls with
  | [] => (clientStore, [])
  | c :: rest =>
      let '(s, r) := call c clientStore in
      let '(s', rs) := run rest s in
      (s', r :: rs)
  end.

Definition reachable (clientStore : Store) : Prop :=
  ∃ calls, (run calls ∅).1 = clientStore.

(** ** Vocabulary of the properties *)

(** The three kinds of decision. *)
Definition Allowed (d : Decision) : Prop :=
  allowed d = true ∧ status d = 200.
Definition DeniedRateLimited (d : Decision) : Prop :=
  allowed d = false ∧ status d = 429.
Definition DeniedBanned (d : Decision) : Prop :=
  allowed d = false ∧ status d = 403.

(** The timestamps strictly newer than [now - WINDOW_MS]: what a pruning
    pass at [now] keeps. *)
Definition inWindow (now : Z) (reqs : list Z) : list Z :=
  filter (λ t, now - WINDOW_MS < t) reqs.

(** The record the window check of a call at [now] works on: the fresh record
    of a client seen for the first time, the stored record of a client that
    is not banned, or the fresh record that replaces an expired ban. *)
Inductive entry (clientStore : Store) (clientKey : string) (now : Z)
    : ClientRecord → Prop :=
  | entry_new :
      clientStore !! clientKey = None →
      entry clientStore clientKey now initRecord
  | entry_known record :
      clientStore !! clientKey = Some record →
      banned record = false →
      entry clientStore clientKey now record
  | entry_expired record :
      clientStore !! clientKey = Some record →
      banned record = true →
      bannedUntil record ≤ now →
      entry clientStore clientKey now initRecord.

(** What lines 114-163 of [checkRateLimit] do to the record they work on,
    and the decision they return. *)
Definition windowDecision (current pruneNow : Z) (record : ClientRecord)
    : ClientRecord * Decision :=
  let pruned := inWindow pruneNow (requests record) in
  if MAX_REQUESTS <=? Z.of_nat (length pruned) then
    if BAN_THRESHOLD <=? violations record + 1 then
      ({| requests := pruned;
          violations := violations record + 1;
          banned := true;
          bannedUntil := current + BAN_DURATION_MS |},
       {| allowed := false;
          status := 403;
          remaining := 0;
          resetIn := Math_ceil_div BAN_DURATION_MS 1000;
          reported_violations := None;
          message := "Too many violations. Client banned for " +:+
                     pretty (BAN_DURATION_MS / 1000 / 60) +:+ " minutes." |})
    else
      ({| requests := pruned;
          violations := violations record + 1;
          banned := banned record;
          bannedUntil := bannedUntil record |},
       {| allowed := false;
          status := 429;
          remaining := 0;
          resetIn :=
            Math_ceil_div (js_or (head pruned) current + WINDOW_MS - current)
                          1000;
          reported_violations := Some (violations record + 1);
          message := "Rate limit exceeded. " +:+
                     pretty (BAN_THRESHOLD - (violations record + 1)) +:+
                     " violation(s) remaining before ban." |})
  else
    ({| requests := pruned ++ [current];
        violations := violations record;
        banned := banned record;
        bannedUntil := bannedUntil record |},
     {| allowed := true;
        status := 200;
        remaining := MAX_REQUESTS - Z.of_nat (length (pruned ++ [current]));
        resetIn :=
          Math_ceil_div
            (default current (head (pruned ++ [current])) + WINDOW_MS - current)
            1000;
        reported_violations := None;
        message := "Request allowed." |}).


(** Sample data for the worked instances. *)
Definition bannedSample : ClientRecord :=
  {| requests := [1000; 1001];
     violations := 3;
     banned := true;
     bannedUntil := 301000 |}.

Definition fullSample (v : Z) : ClientRecord :=
  {| requests := [100000; 100001; 100002; 100003; 100004;
                  100005; 100006; 100007; 100008; 100009];
     violations := v;
     banned := false;
     bannedUntil := 0 |}.

(** A record that has only ever been allowed requests, at [reqs]. *)
Definition admitted (reqs : list Z) : ClientRecord :=
  {| requests := reqs; violations := 0; banned := false; bannedUntil := 0 |}.


(** An idle record: no timestamps, no violations, not banned. *)
Definition idle (record : ClientRecord) : Prop :=
  requests record = [] ∧ violations record = 0 ∧ banned record = false.

(** The records a cleanup pass evicts: an expired ban at [now_ts], or a
    record that is idle once pruned at [pruneNow]. *)
Definition evicts (now_ts pruneNow : Z) (record : ClientRecord) : Prop :=
  (banned record = true ∧ bannedUntil record ≤ now_ts)
  ∨ idle (pruneOldRequests pruneNow record).

Global Instance idle_dec record : base.Decision (idle record).
Proof. unfold idle. apply _. Defined.

Global Instance evicts_dec now_ts pruneNow record :
  base.Decision (evicts now_ts pruneNow record).
Proof. unfold evicts. apply _. Defined.

(** The timestamps the store holds for a client; none for a client it does
    not know. *)
Definition requestsOf (clientStore : Store) (clientKey : string) : list Z :=
  from_option requests [] (clientStore !! clientKey).

(** A record that is not banned has fewer than [BAN_THRESHOLD] violations;
    a banned one has exactly [BAN_THRESHOLD]. *)
Definition violationsBounded (record : ClientRecord) : Prop :=
  if banned record then violations record = BAN_THRESHOLD
  else 0 ≤ violations record < BAN_THRESHOLD.

Definition storeBounded (clientStore : Store) : Prop :=
  ∀ k r, clientStore !! k = Some r → violationsBounded r.

(** A run that exhausts the quota of ["c1"] and then exceeds it [excess]
    times, while ["c2"] makes one request. *)
Definition sampleRun (excess : nat) : list Call :=
  (Evaluate "c1" <$> [100000; 100001; 100002; 100003; 100004;
                      100005; 100006; 100007; 100008; 100009])
  ++ [Evaluate "c2" 100500; Sweep 101000]
  ++ (Evaluate "c1" <$> take excess [102000; 102001; 102002]).

(** The instant a call reads from the clock; the administrative calls do
    not read it. *)
Definition callTime (c : Call) : option Z :=
  match c with
  | Evaluate _ now => Some now
  | Sweep now => Some now
  | _ => None
  end.

(** The clock never goes back in the course of a run. *)
Definition chronological (calls : list Call) : Prop :=
  StronglySorted Z.le (omap callTime calls).






(** Ten requests in the first ten milliseconds, and one more exactly one
    window after the first. *)
Definition boundaryRun : list Call :=
  (Evaluate "c1" <$> [100000; 100001; 100002; 100003; 100004;
                      100005; 100006; 100007; 100008; 100009])
  ++ [Evaluate "c1" 159999; Sweep 159999; Evaluate "c2" 160000;
      Unban "c2"; Evaluate "c1" 160000; Evaluate "c1" 160000].

(** What a call of [checkRateLimit] does to the record of its client, given
    as [clientStore[clientKey]] ([None] for a client not seen before), and the
    decision it returns. *)
Definition clientStep (current pruneNow : Z) (stored : option ClientRecord)
    : ClientRecord * Decision :=
  let record := default initRecord stored in
  if banned record && (current <? bannedUntil record) then
    (record,
     {| allowed := false;
        status := 403;
        remaining := 0;
        resetIn := Math_ceil_div (bannedUntil record - current) 1000;
        reported_violations := None;
        message := "Client is banned. Too many violations." |})
  else
    windowDecision current pruneNow
      (if banned record then initRecord else record).

(** A record holds at most [MAX_REQUESTS] timestamps, and [bannedUntil] is
    only set on a banned record. *)
Definition recordCapped (record : ClientRecord) : Prop :=
  Z.of_nat (length (requests record)) ≤ MAX_REQUESTS
  ∧ (banned record = false → bannedUntil record = 0).

(** At time [T] the timestamps of a record are in the past and in
    non-decreasing order, and a ban ends at most [BAN_DURATION_MS] later. *)
Definition recordTimely (T : Z) (record : ClientRecord) : Prop :=
  Forall (λ t, t ≤ T) (requests record)
  ∧ StronglySorted Z.le (requests record)
  ∧ (banned record = true → bannedUntil record ≤ T + BAN_DURATION_MS).

(** The number of seconds a reply asks the client to wait is at least one,
    at most the ban duration for a 403 and at most the window for the
    others. *)
Definition replyTimely (r : Reply) : Prop :=
  match r with
  | Decided d =>
      1 ≤ resetIn d
      ∧ resetIn d ≤ (if decide (status d = 403) then BAN_DURATION_MS / 1000
                     else WINDOW_MS / 1000)
  | _ => True
  end.







(** The 403 decision [checkRateLimit] returns while a ban runs until
    [until]. *)
Definition stillBanned (until current : Z) : Decision :=
  {| allowed := false;
     status := 403;
     remaining := 0;
     resetIn := Math_ceil_div (until - current) 1000;
     reported_violations := None;
     message := "Client is banned. Too many violations." |}.

(** ** Read-only handlers and the sample endpoint *)

Record StatusBody := mkStatusBody {
  service : string;
  uptime_seconds : Z;
  window_ms : Z;
  max_requests : Z;
  ban_threshold : Z;
  ban_duration_ms : Z;
  tracked_clients : Z;
  banned_clients : Z
}.

(** [handleStatus(req, res)]: the status code and the payload passed to
    [sendJSON].  [uptime] is [Math.floor(process.uptime())]. *)
Definition handleStatus (uptime : Z) (clientStore : Store) : Z * StatusBody :=
  let total := Z.of_nat (size clientStore) in
  let bannedCount :=
    map_fold (λ (key : string) (record : ClientRecord) (bannedCount : Z),
                if banned record then bannedCount + 1 else bannedCount)
             0 clientStore in
  (200,
   {| service := "Rate Limiter";
      uptime_seconds := uptime;
      window_ms := WINDOW_MS;
      max_requests := MAX_REQUESTS;
      ban_threshold := BAN_THRESHOLD;
      ban_duration_ms := BAN_DURATION_MS;
      tracked_clients := total;
      banned_clients := bannedCount |}).

Record ClientSummary := mkClientSummary {
  active_requests_in_window : Z;
  summary_violations : Z;
  summary_banned : bool;
  banned_until : option string
}.

(** The entry [handleAdmin] writes for a record.  [toISOString t] stands for
    [new Date(t).toISOString()]. *)
Definition summarize (toISOString : Z → string) (r : ClientRecord)
    : ClientSummary :=
  {| active_requests_in_window := Z.of_nat (length (requests r));
     summary_violations := violations r;
     summary_banned := banned r;
     banned_until :=
       if banned r then Some (toISOString (bannedUntil r)) else None |}.

(** [handleAdmin(req, res)]: the status code and the [clients] object of the
    payload. *)
Definition handleAdmin (toISOString : Z → string) (clientStore : Store)
    : Z * gmap string ClientSummary :=
  (200,
   map_fold (λ (key : string) (r : ClientRecord)
               (snapshot : gmap string ClientSummary),
               <[key := summarize toISOString r]> snapshot)
            ∅ clientStore).

(** [result.violations || "N/A"]. *)
Inductive ViolationsField :=
  | ViolationsCount (n : Z)
  | ViolationsNA.

Inductive ApiBody :=
  | ApiDenied (error : string) (remaining reset_in_s : Z)
              (violations : ViolationsField)
  | ApiSuccess (message client : string) (remaining reset_in_s : Z).

Record ApiResponse := mkApiResponse {
  apiHeaders : list (string * Z);
  apiStatus : Z;
  apiBody : ApiBody
}.

(** [handleSampleAPI(clientKey, req, res)]: the store it leaves, the headers
    it sets on [res], in order, and the status and payload it sends. *)
Definition handleSampleAPI (clientKey : string) (current pruneNow : Z)
    (clientStore : Store) : Store * ApiResponse :=
  let '(clientStore, result) :=
    checkRateLimit clientKey current pruneNow clientStore in
  let headers :=
    [("X-RateLimit-Limit", MAX_REQUESTS);
     ("X-RateLimit-Remaining", remaining result);
     ("X-RateLimit-Reset", resetIn result)] in
  if negb (allowed result) then
    (clientStore,
     {| apiHeaders := headers ++ [("Retry-After", resetIn result)];
        apiStatus := status result;
        apiBody :=
          ApiDenied (message result) (remaining result) (resetIn result)
            (match reported_violations result with
             | Some v => if v =? 0 then ViolationsNA else ViolationsCount v
             | None => ViolationsNA
             end) |})
  else
    (clientStore,
     {| apiHeaders := headers;
        apiStatus := 200;
        apiBody :=
          ApiSuccess "Hello from the rate-limited API endpoint!" clientKey
            (remaining result) (resetIn result) |}).


(** ** The client key

    A header value or an address is a string of code units below 256, one
    [Ascii.ascii] each. *)

(** The code units that [String.prototype.trim] removes: the white space and
    line terminators of JavaScript below 256 (TAB, LF, VT, FF, CR, SP,
    NBSP). *)
Definition js_space (c : Ascii.ascii) : bool :=
  bool_decide (c ∈ ["009"; "010"; "011"; "012"; "013"; " "; "160"]%char).

(** [s.split(sep)[0]]: the code units before the first [sep]. *)
Fixpoint takeUntil (sep : Ascii.ascii) (l : list Ascii.ascii) : list Ascii.ascii :=
  match l with
  | [] => []
  | c :: rest => if decide (c = sep) then [] else c :: takeUntil sep rest
  end.

Fixpoint dropSpaces (l : list Ascii.ascii) : list Ascii.ascii :=
  match l with
  | [] => []
  | c :: rest => if js_space c then dropSpaces rest else l
  end.

(** [s.trim()]. *)
Definition String_trim (l : list Ascii.ascii) : list Ascii.ascii :=
  reverse (dropSpaces (reverse (dropSpaces l))).

(** [getClientKey(req)].  [forwarded] is [req.headers["x-forwarded-for"]]
    and [remoteAddress] is [req.socket.remoteAddress]; [None] is
    [undefined]. *)
Definition getClientKey (forwarded remoteAddress : option string)
    : option string :=
  match forwarded with
  | Some f =>
      if decide (f = "") then remoteAddress
      else
        Some (String.string_of_list_ascii
                (String_trim (takeUntil "," (String.list_ascii_of_string f))))
  | None => remoteAddress
  end.

(** A string without leading or trailing white space. *)
Definition trimmed (l : list Ascii.ascii) : Prop :=
  (∀ c, head l = Some c → js_space c = false)
  ∧ (∀ c, last l = Some c → js_space c = false).

(** ** Routing *)

(** The handler the server callback hands a request to.  The unban and reset
    routes carry the text captured from the path, before
    [decodeURIComponent]. *)
Inductive Route :=
  | RouteApi
  | RouteStatus
  | RouteAdmin
  | RouteResetAll
  | RouteUnban (captured : string)
  | RouteReset (captured : string)
  | RouteNotFound.

(** [s.replace(/\/+$/, "")]. *)
Fixpoint stripTrailingSlashes (l : list Ascii.ascii) : list Ascii.ascii :=
  match l with
  | [] => []
  | c :: rest =>
      match stripTrailingSlashes rest with
      | [] => if decide (c = "/"%char) then [] else [c]
      | stripped => c :: stripped
      end
  end.

(** [l] without [prefix], when it starts with it. *)
Fixpoint afterPrefix (prefix l : list Ascii.ascii)
    : option (list Ascii.ascii) :=
  match prefix, l with
  | [], _ => Some l
  | p :: prefix, c :: l => if decide (p = c) then afterPrefix prefix l else None
  | _ :: _, [] => None
  end.

(** The line terminators below 256, which [.] does not match. *)
Definition js_line_terminator (c : Ascii.ascii) : bool :=
  bool_decide (c ∈ ["010"; "013"]%char).

(** Group 1 of [pathname.match(/^prefix(.+)$/)] for a literal [prefix], or
    [None] when there is no match. *)
Definition matchAfter (prefix pathname : string) : option string :=
  match afterPrefix (String.list_ascii_of_string prefix)
                    (String.list_ascii_of_string pathname) with
  | Some rest =>
      if bool_decide (rest ≠ [])
         && forallb (λ c, negb (js_line_terminator c)) rest
      then Some (String.string_of_list_ascii rest)
      else None
  | None => None
  end.

(** The routing of the server callback.  [rawPathname] is [parsed.pathname]
    and [method] is [req.method.toUpperCase()]. *)
Definition route (rawPathname method : string) : Route :=
  let stripped :=
    String.string_of_list_ascii
      (stripTrailingSlashes (String.list_ascii_of_string rawPathname)) in
  let pathname := if decide (stripped = "") then "/" else stripped in
  if bool_decide (pathname = "/api") && bool_decide (method = "GET") then
    RouteApi
  else if bool_decide (pathname = "/status") && bool_decide (method = "GET")
  then RouteStatus
  else if bool_decide (pathname = "/admin/clients")
          && bool_decide (method = "GET")
  then RouteAdmin
  else if bool_decide (pathname = "/admin/reset-all")
          && bool_decide (method = "DELETE")
  then RouteResetAll
  else
    match matchAfter "/admin/unban/" pathname,
          bool_decide (method = "POST") with
    | Some captured, true => RouteUnban captured
    | _, _ =>
        match matchAfter "/admin/reset/" pathname,
              bool_decide (method = "DELETE") with
        | Some captured, true => RouteReset captured
        | _, _ => RouteNotFound
        end
    end.

(** A path segment the unban and reset routes can capture: not empty, not
    ending with a slash, without line terminators. *)
Definition capturable (key : string) : Prop :=
  key ≠ ""
  ∧ last (String.list_ascii_of_string key) ≠ Some "/"%char
  ∧ Forall (λ c, js_line_terminator c = false)
      (String.list_ascii_of_string key).

(** ** Arithmetic and pruning lemmas *)

Lemma Math_ceil_div_spec a b :
  0 < b →
  b * (Math_ceil_div a b - 1) < a ≤ b * Math_ceil_div a b.
Proof.
  intros Hb. unfold Math_ceil_div.
  pose proof (Z.div_mod (- a) b ltac:(lia)) as Hdm.
  pose proof (Z.mod_pos_bound (- a) b Hb) as Hmod.
  nia.
Qed.

Lemma pruneLoop_filter cutoff reqs fresh :
  pruneLoop cutoff reqs fresh = fresh ++ filter (λ t, cutoff < t) reqs.
Proof.
  revert fresh. induction reqs as [|t rest IH]; intros fresh; simpl.
  - by rewrite app_nil_r.
  - rewrite IH. destruct (Z.ltb_spec cutoff t) as [Hlt|Hge].
    + rewrite filter_cons_True by done. by rewrite <- app_assoc.
    + rewrite filter_cons_False by lia. done.
Qed.

Lemma pruneOldRequests_requests now record :
  requests (pruneOldRequests now record) = inWindow now (requests record).
Proof. unfold pruneOldRequests, inWindow. simpl. apply pruneLoop_filter. Qed.

Lemma pruneOldRequests_eq now record :
  pruneOldRequests now record =
  {| requests := inWindow now (requests record);
     violations := violations record;
     banned := banned record;
     bannedUntil := bannedUntil record |}.
Proof. unfold pruneOldRequests, inWindow. by rewrite pruneLoop_filter. Qed.

Lemma inWindow_elem now reqs t :
  t ∈ inWindow now reqs ↔ t ∈ reqs ∧ now - WINDOW_MS < t.
Proof. unfold inWindow. rewrite list_elem_of_filter. tauto. Qed.

Lemma inWindow_sublist now reqs : inWindow now reqs `sublist_of` reqs.
Proof. apply sublist_filter. Qed.


Lemma inWindow_none now reqs :
  Forall (λ t, t ≤ now - WINDOW_MS) reqs → inWindow now reqs = [].
Proof.
  unfold inWindow. induction 1 as [|t l Ht _ IH]; [done|].
  rewrite filter_cons_False by lia. done.
Qed.

Lemma inWindow_inWindow now now' reqs :
  now ≤ now' → inWindow now' (inWindow now reqs) = inWindow now' reqs.
Proof.
  intros Hle. unfold inWindow. induction reqs as [|t l IH]; [done|].
  destruct (decide (now - WINDOW_MS < t)) as [H1|H1].
  - rewrite (filter_cons_True (λ t, now - WINDOW_MS < t)) by done.
    destruct (decide (now' - WINDOW_MS < t)) as [H2|H2].
    + rewrite !(filter_cons_True (λ t, now' - WINDOW_MS < t)) by done.
      by rewrite IH.
    + rewrite !(filter_cons_False (λ t, now' - WINDOW_MS < t)) by done.
      done.
  - rewrite (filter_cons_False (λ t, now - WINDOW_MS < t)) by done.
    rewrite (filter_cons_False (λ t, now' - WINDOW_MS < t)) by lia.
    done.
Qed.

(** ** [checkRateLimit] by cases *)

Lemma checkRateLimit_banned clientKey current pruneNow clientStore record :
  clientStore !! clientKey = Some record →
  banned record = true →
  current < bannedUntil record →
  checkRateLimit clientKey current pruneNow clientStore =
  (clientStore,
   {| allowed := false;
      status := 403;
      remaining := 0;
      resetIn := Math_ceil_div (bannedUntil record - current) 1000;
      reported_violations := None;
      message := "Client is banned. Too many violations." |}).
Proof.
  intros Hk Hb Hlt. unfold checkRateLimit. rewrite Hk, Hb. simpl.
  destruct (Z.ltb_spec current (bannedUntil record)); [done|lia].
Qed.

Lemma checkRateLimit_entry clientKey current pruneNow clientStore record :
  entry clientStore clientKey current record →
  checkRateLimit clientKey current pruneNow clientStore =
  let '(record', d) := windowDecision current pruneNow record in
  (<[clientKey := record']> clientStore, d).
Proof.
  intros He. unfold checkRateLimit, windowDecision.
  destruct He as [Hk|r Hk Hb|r Hk Hb Hle]; rewrite Hk; cbv beta iota zeta.
  - change (banned initRecord) with false. cbv beta iota zeta.
    rewrite andb_false_l, pruneOldRequests_eq.
    cbn [requests violations banned bannedUntil initRecord].
    repeat case_match; simplify_eq; rewrite ?insert_insert_eq; reflexivity.
  - rewrite Hb, andb_false_l, pruneOldRequests_eq.
    cbn [requests violations banned bannedUntil].
    repeat case_match; simplify_eq; rewrite ?Hb; reflexivity.
  - rewrite Hb, andb_true_l.
    destruct (Z.ltb_spec current (bannedUntil r)); [lia|].
    rewrite pruneOldRequests_eq.
    cbn [requests violations banned bannedUntil initRecord].
    repeat case_match; simplify_eq; reflexivity.
Qed.

Lemma evaluate_entry clientKey now clientStore record :
  entry clientStore clientKey now record →
  evaluate clientKey now clientStore =
  let '(record', d) := windowDecision now now record in
  (<[clientKey := record']> clientStore, d).
Proof. apply checkRateLimit_entry. Qed.

Lemma windowDecision_allowed current pruneNow record :
  Z.of_nat (length (inWindow pruneNow (requests record))) < MAX_REQUESTS →
  windowDecision current pruneNow record =
  ({| requests := inWindow pruneNow (requests record) ++ [current];
      violations := violations record;
      banned := banned record;
      bannedUntil := bannedUntil record |},
   {| allowed := true;
      status := 200;
      remaining :=
        MAX_REQUESTS -
        Z.of_nat (length (inWindow pruneNow (requests record) ++ [current]));
      resetIn :=
        Math_ceil_div
          (default current
                   (head (inWindow pruneNow (requests record) ++ [current]))
           + WINDOW_MS - current) 1000;
      reported_violations := None;
      message := "Request allowed." |}).
Proof.
  intros Hlt. unfold windowDecision.
  destruct (Z.leb_spec MAX_REQUESTS
              (Z.of_nat (length (inWindow pruneNow (requests record)))));
    [lia|reflexivity].
Qed.

Lemma windowDecision_limited current pruneNow record :
  MAX_REQUESTS ≤ Z.of_nat (length (inWindow pruneNow (requests record))) →
  violations record + 1 < BAN_THRESHOLD →
  windowDecision current pruneNow record =
  ({| requests := inWindow pruneNow (requests record);
      violations := violations record + 1;
      banned := banned record;
      bannedUntil := bannedUntil record |},
   {| allowed := false;
      status := 429;
      remaining := 0;
      resetIn :=
        Math_ceil_div
          (js_or (head (inWindow pruneNow (requests record))) current
           + WINDOW_MS - current) 1000;
      reported_violations := Some (violations record + 1);
      message := "Rate limit exceeded. " +:+
                 pretty (BAN_THRESHOLD - (violations record + 1)) +:+
                 " violation(s) remaining before ban." |}).
Proof.
  intros Hge Hv. unfold windowDecision.
  destruct (Z.leb_spec MAX_REQUESTS
              (Z.of_nat (length (inWindow pruneNow (requests record)))));
    [|lia].
  destruct (Z.leb_spec BAN_THRESHOLD (violations record + 1));
    [lia|reflexivity].
Qed.

Lemma windowDecision_ban current pruneNow record :
  MAX_REQUESTS ≤ Z.of_nat (length (inWindow pruneNow (requests record))) →
  BAN_THRESHOLD ≤ violations record + 1 →
  windowDecision current pruneNow record =
  ({| requests := inWindow pruneNow (requests record);
      violations := violations record + 1;
      banned := true;
      bannedUntil := current + BAN_DURATION_MS |},
   {| allowed := false;
      status := 403;
      remaining := 0;
      resetIn := Math_ceil_div BAN_DURATION_MS 1000;
      reported_violations := None;
      message := "Too many violations. Client banned for " +:+
                 pretty (BAN_DURATION_MS / 1000 / 60) +:+ " minutes." |}).
Proof.
  intros Hge Hv. unfold windowDecision.
  destruct (Z.leb_spec MAX_REQUESTS
              (Z.of_nat (length (inWindow pruneNow (requests record)))));
    [|lia].
  destruct (Z.leb_spec BAN_THRESHOLD (violations record + 1));
    [reflexivity|lia].
Qed.

(** After a pruning pass at [now >= WINDOW_MS] the oldest surviving
    timestamp is positive, so [||] keeps it. *)
Lemma js_or_head_inWindow now reqs :
  WINDOW_MS ≤ now →
  js_or (head (inWindow now reqs)) now = default now (head (inWindow now reqs)).
Proof.
  intros Hnow. destruct (inWindow now reqs) as [|t l] eqn:Hl; [done|].
  assert (t ∈ inWindow now reqs) as Ht by (rewrite Hl; left).
  apply inWindow_elem in Ht as [_ Ht]. simpl.
  destruct (Z.eqb_spec t 0); [lia|done].
Qed.

(** ** The pruning pass *)

(** C5: [pruneOldRequests] at time [now] removes exactly the timestamps
    [t <= now - WINDOW_MS] of [requests], keeps the others in their order,
    and changes no other field of the record. *)
Theorem pruneOldRequests_exact now record :
  let pruned := pruneOldRequests now record in
  requests pruned = filter (λ t, ¬ t ≤ now - WINDOW_MS) (requests record)
  ∧ (∀ t, t ∈ requests pruned
          ↔ t ∈ requests record ∧ ¬ t ≤ now - WINDOW_MS)
  ∧ requests pruned `sublist_of` requests record
  ∧ violations pruned = violations record
  ∧ banned pruned = banned record
  ∧ bannedUntil pruned = bannedUntil record.
Proof.
  intros pruned. subst pruned. rewrite pruneOldRequests_requests.
  split_and!; try reflexivity.
  - unfold inWindow. apply list_filter_iff. intros t. lia.
  - intros t. rewrite inWindow_elem.
    split; intros [? ?]; split; [done|lia|done|lia].
  - apply inWindow_sublist.
Qed.

(** ** The ban check *)



(** ** The window check *)

(** C3: when the record the window check works on still holds at least
    [MAX_REQUESTS] timestamps after pruning (exactly [MAX_REQUESTS]
    included), the call stores the pruned timestamps and [violations + 1].
    If the new count reaches [BAN_THRESHOLD] the record becomes banned until
    [now + BAN_DURATION_MS] and the call is denied as banned with
    [remaining = 0] and [resetIn = ceil(BAN_DURATION_MS / 1000)]; otherwise
    the call is denied as rate limited with [remaining = 0], the new
    violations count and, for a clock at least one window past the epoch,
    [resetIn = ceil((oldest + WINDOW_MS - now) / 1000)], [oldest] being the
    first surviving timestamp ([now] if there were none). *)
Theorem evaluate_exhausted clientStore clientKey now record :
  entry clientStore clientKey now record →
  let pruned := requests (pruneOldRequests now record) in
  let v := violations record + 1 in
  MAX_REQUESTS ≤ Z.of_nat (length pruned) →
  ∃ record' d,
    evaluate clientKey now clientStore
      = (<[clientKey := record']> clientStore, d)
    ∧ requests record' = pruned
    ∧ violations record' = v
    ∧ remaining d = 0
    ∧ (BAN_THRESHOLD ≤ v →
       banned record' = true
       ∧ bannedUntil record' = now + BAN_DURATION_MS
       ∧ DeniedBanned d
       ∧ resetIn d = Math_ceil_div BAN_DURATION_MS 1000)
    ∧ (v < BAN_THRESHOLD →
       banned record' = false
       ∧ bannedUntil record' = bannedUntil record
       ∧ DeniedRateLimited d
       ∧ reported_violations d = Some v
       ∧ (WINDOW_MS ≤ now →
          resetIn d =
          Math_ceil_div (default now (head pruned) + WINDOW_MS - now) 1000)).
Proof.
  intros He pruned v Hfull. subst pruned v.
  rewrite pruneOldRequests_requests in *.
  assert (banned record = false) as Hnb by (by destruct He).
  rewrite (evaluate_entry _ _ _ _ He).
  destruct (Z.le_gt_cases BAN_THRESHOLD (violations record + 1)) as [Hv|Hv].
  - rewrite windowDecision_ban by done.
    eexists _, _. split; [reflexivity|]. simpl.
    split_and!; try done. intros ?; lia.
  - rewrite windowDecision_limited by (done || lia).
    eexists _, _. split; [reflexivity|]. simpl.
    split_and!; try done; [intros ?; lia|].
    intros _. split_and!; try done.
    intros Hnow. by rewrite js_or_head_inWindow.
Qed.

Lemma evaluate_exhausted_witness :
  (∃ record' d,
     evaluate "c1" 102000 {[ "c1" := fullSample 0 ]}
       = (<[ "c1" := record' ]> {[ "c1" := fullSample 0 ]}, d)
     ∧ violations record' = 1
     ∧ banned record' = false
     ∧ DeniedRateLimited d
     ∧ remaining d = 0
     ∧ reported_violations d = Some 1
     ∧ resetIn d = 58)
  ∧ (∃ record' d,
       evaluate "c1" 102000 {[ "c1" := fullSample 2 ]}
         = (<[ "c1" := record' ]> {[ "c1" := fullSample 2 ]}, d)
       ∧ violations record' = 3
       ∧ banned record' = true
       ∧ bannedUntil record' = 402000
       ∧ DeniedBanned d
       ∧ remaining d = 0
       ∧ resetIn d = 300).
Proof.
  split.
  - destruct (evaluate_exhausted {[ "c1" := fullSample 0 ]} "c1" 102000
                (fullSample 0))
      as (record' & d & Heq & _ & Hv & Hrem & _ & Hlim).
    + apply entry_known; [vm_compute; reflexivity | reflexivity].
    + vm_compute. discriminate.
    + destruct Hlim as (Hb & _ & Hd & Hrv & Hreset);
        [vm_compute; reflexivity|].
      exists record', d. split_and!; try assumption.
      apply Hreset. vm_compute. discriminate.
  - destruct (evaluate_exhausted {[ "c1" := fullSample 2 ]} "c1" 102000
                (fullSample 2))
      as (record' & d & Heq & _ & Hv & Hrem & Hban & _).
    + apply entry_known; [vm_compute; reflexivity | reflexivity].
    + vm_compute. discriminate.
    + destruct Hban as (Hb & Hbu & Hd & Hreset);
        [vm_compute; discriminate|].
      exists record', d. split_and!; assumption.
Defined.






(** ** The cleanup pass *)

Lemma cleanupStep_evicts now_ts pruneNow key record clientStore removed :
  evicts now_ts (pruneNow key) record →
  cleanupStep now_ts pruneNow key record (clientStore, removed) =
  (delete key clientStore, removed + 1).
Proof.
  intros [[Hb Hle]|(Hreq & Hv & Hb)]; unfold cleanupStep.
  - rewrite Hb. destruct (Z.leb_spec (bannedUntil record) now_ts); [done|lia].
  - simpl in Hb, Hv. rewrite Hb, andb_false_l, Hreq. simpl.
    by rewrite Hv, Hb.
Qed.

Lemma cleanupStep_keeps now_ts pruneNow key record clientStore removed :
  ¬ evicts now_ts (pruneNow key) record →
  cleanupStep now_ts pruneNow key record (clientStore, removed) =
  (<[key := pruneOldRequests (pruneNow key) record]> clientStore, removed).
Proof.
  intros Hne. unfold cleanupStep.
  destruct (banned record && (bannedUntil record <=? now_ts)) eqn:Hexp.
  - exfalso. apply Hne. left. apply andb_true_iff in Hexp as [? ?].
    split; [done|lia].
  - set (pruned := pruneOldRequests (pruneNow key) record).
    destruct ((Z.of_nat (length (requests pruned)) =? 0)
              && (violations pruned =? 0) && negb (banned pruned))
      eqn:Hidle; [|done].
    subst pruned. exfalso. apply Hne. right.
    apply andb_true_iff in Hidle as [Hidle Hb].
    apply andb_true_iff in Hidle as [Hlen Hv].
    split_and!.
    + apply length_zero_iff_nil. lia.
    + lia.
    + by apply negb_true_iff.
Qed.

Lemma cleanupPass_spec now_ts pruneNow (clientStore : Store) :
  let E := λ kr : string * ClientRecord, evicts now_ts (pruneNow kr.1) kr.2 in
  (∀ k, (cleanupPass now_ts pruneNow clientStore).1 !! k =
        match clientStore !! k with
        | Some r =>
            if decide (E (k, r)) then None
            else Some (pruneOldRequests (pruneNow k) r)
        | None => None
        end)
  ∧ (cleanupPass now_ts pruneNow clientStore).2
    = Z.of_nat (size (filter E clientStore))
  ∧ Z.of_nat (size (cleanupPass now_ts pruneNow clientStore).1)
    + (cleanupPass now_ts pruneNow clientStore).2
    = Z.of_nat (size clientStore).
Proof.
  intros E. unfold cleanupPass.
  set (P := λ (acc : Store * Z) (m : Store),
    m ⊆ clientStore →
    (∀ k, acc.1 !! k =
          match m !! k with
          | Some r =>
              if decide (E (k, r)) then None
              else Some (pruneOldRequests (pruneNow k) r)
          | None => clientStore !! k
          end)
    ∧ acc.2 = Z.of_nat (size (filter E m))
    ∧ Z.of_nat (size acc.1) + acc.2 = Z.of_nat (size clientStore)).
  assert (P (map_fold (cleanupStep now_ts pruneNow) (clientStore, 0)
               clientStore) clientStore) as HP.
  { apply (map_fold_weak_ind P); subst P; cbv beta.
    - intros _. simpl. split_and!.
      + intros k. by rewrite lookup_empty.
      + by rewrite map_filter_empty, map_size_empty.
      + lia.
    - intros i x m [st n] Hi IH Hsub.
      assert (m ⊆ clientStore) as Hsub'.
      { etrans; [by apply (insert_subseteq m i x)|done]. }
      destruct (IH Hsub') as (Hlook & Hn & Hsize). simpl in Hlook, Hn, Hsize.
      assert (st !! i = Some x) as Hsti.
      { rewrite Hlook, Hi. eapply lookup_weaken; [|exact Hsub].
        apply lookup_insert_eq. }
      destruct (decide (E (i, x))) as [He|He].
      + rewrite cleanupStep_evicts by exact He. simpl. split_and!.
        * intros k. destruct (decide (i = k)) as [<-|Hne].
          -- rewrite lookup_delete_eq, lookup_insert_eq.
             by rewrite decide_True.
          -- rewrite lookup_delete_ne, lookup_insert_ne by done. apply Hlook.
        * rewrite map_filter_insert_True by exact He.
          rewrite map_size_insert_None by (by rewrite map_lookup_filter, Hi).
          lia.
        * rewrite map_size_delete_Some by (by eexists).
          assert (size st ≠ 0%nat).
          { intros H0. apply map_size_empty_inv in H0. by subst st. }
          lia.
      + rewrite cleanupStep_keeps by exact He. simpl. split_and!.
        * intros k. destruct (decide (i = k)) as [<-|Hne].
          -- rewrite !lookup_insert_eq. by rewrite decide_False.
          -- rewrite !lookup_insert_ne by done. apply Hlook.
        * rewrite map_filter_insert_not'; [done|exact He|].
          intros y Hy. by rewrite Hi in Hy.
        * rewrite map_size_insert_Some by (by eexists). lia.
  }
  destruct (HP (reflexivity _)) as (Hlook & Hn & Hsize).
  split_and!; [|done..].
  intros k. rewrite Hlook. by destruct (clientStore !! k).
Qed.



(** ** Administrative handlers *)



(** C8: [resetAll] always answers 200, leaves the store empty and reports
    the number of records it held; a second [resetAll] in a row reports 0. *)
Theorem resetAll_count (clientStore : Store) :
  (resetAll clientStore).1 = ∅
  ∧ statusCode (resetAll clientStore).2 = 200
  ∧ payload (resetAll clientStore).2
    = ClearedBody "All records cleared." (Z.of_nat (size clientStore))
  ∧ payload (resetAll (resetAll clientStore).1).2
    = ClearedBody "All records cleared." 0.
Proof.
  unfold resetAll, handleResetAll. simpl. split_and!; reflexivity.
Qed.

(** ** Decisions that deny *)

Lemma checkRateLimit_other clientKey current pruneNow clientStore k :
  k ≠ clientKey →
  (checkRateLimit clientKey current pruneNow clientStore).1 !! k
  = clientStore !! k.
Proof.
  intros Hne. unfold checkRateLimit.
  destruct (clientStore !! clientKey) as [r|] eqn:Hk;
    repeat case_match; simpl;
    rewrite ?lookup_insert_ne by done; reflexivity.
Qed.

Lemma checkRateLimit_kinds clientKey current pruneNow clientStore :
  let d := (checkRateLimit clientKey current pruneNow clientStore).2 in
  Allowed d ∨ DeniedRateLimited d ∨ DeniedBanned d.
Proof.
  unfold checkRateLimit, Allowed, DeniedRateLimited, DeniedBanned.
  destruct (clientStore !! clientKey) as [r|];
    repeat case_match; simpl; auto.
Qed.

Lemma windowDecision_denied current pruneNow record :
  allowed (windowDecision current pruneNow record).2 = false →
  requests (windowDecision current pruneNow record).1
  = inWindow pruneNow (requests record).
Proof.
  unfold windowDecision.
  destruct (MAX_REQUESTS <=? _); [|discriminate].
  by destruct (BAN_THRESHOLD <=? _).
Qed.

Lemma checkRateLimit_entry_denied clientKey current pruneNow clientStore
    record :
  entry clientStore clientKey current record →
  allowed (checkRateLimit clientKey current pruneNow clientStore).2 = false →
  ∃ record',
    (checkRateLimit clientKey current pruneNow clientStore).1 !! clientKey
      = Some record'
    ∧ requests record' = inWindow pruneNow (requests record).
Proof.
  intros He. rewrite (checkRateLimit_entry _ _ _ _ _ He).
  pose proof (windowDecision_denied current pruneNow record) as Hden.
  destruct (windowDecision current pruneNow record) as [r' d]. simpl in *.
  intros Hd. exists r'. rewrite lookup_insert_eq. auto.
Qed.

(** A denied call stores a record whose timestamps are a subsequence of the
    ones the store held for the client. *)
Lemma checkRateLimit_denied clientKey current pruneNow clientStore :
  allowed (checkRateLimit clientKey current pruneNow clientStore).2 = false →
  ∃ record',
    (checkRateLimit clientKey current pruneNow clientStore).1 !! clientKey
      = Some record'
    ∧ requests record' `sublist_of` requestsOf clientStore clientKey.
Proof.
  intros Hd. unfold requestsOf.
  destruct (clientStore !! clientKey) as [r|] eqn:Hk.
  - destruct (banned r) eqn:Hb.
    + destruct (Z.lt_ge_cases current (bannedUntil r)) as [Hlt|Hge].
      * rewrite (checkRateLimit_banned _ _ _ _ r) by done. simpl.
        exists r. by rewrite Hk.
      * destruct (checkRateLimit_entry_denied clientKey current pruneNow
                    clientStore initRecord) as (r' & Hk' & Hr');
          [by eapply entry_expired|done|].
        exists r'. split; [done|]. rewrite Hr'. apply sublist_nil_l.
    + destruct (checkRateLimit_entry_denied clientKey current pruneNow
                  clientStore r) as (r' & Hk' & Hr');
        [by apply entry_known|done|].
      exists r'. split; [done|]. rewrite Hr'. apply inWindow_sublist.
  - destruct (checkRateLimit_entry_denied clientKey current pruneNow
                clientStore initRecord) as (r' & Hk' & Hr');
      [by apply entry_new|done|].
    exists r'. split; [done|]. rewrite Hr'. apply sublist_nil_l.
Qed.

(** C10: an [evaluate] call that is denied, as banned or as rate limited,
    appends no timestamp: the timestamps stored for the client after the
    call are a subsequence of those stored before it (pruning or the reset
    of an expired ban can only remove some), and no other client's record
    changes. *)
Theorem evaluate_denied_no_append clientKey now (clientStore : Store) :
  let d := (evaluate clientKey now clientStore).2 in
  let clientStore' := (evaluate clientKey now clientStore).1 in
  DeniedBanned d ∨ DeniedRateLimited d →
  requestsOf clientStore' clientKey
    `sublist_of` requestsOf clientStore clientKey
  ∧ (length (requestsOf clientStore' clientKey)
     ≤ length (requestsOf clientStore clientKey))%nat
  ∧ ∀ k, k ≠ clientKey → clientStore' !! k = clientStore !! k.
Proof.
  intros d st' Hd. subst d st'. unfold evaluate in *.
  assert (allowed (checkRateLimit clientKey now now clientStore).2 = false)
    as Hden by (by destruct Hd as [[? _]|[? _]]).
  destruct (checkRateLimit_denied _ _ _ _ Hden) as (r' & Hk' & Hsub).
  assert (requestsOf (checkRateLimit clientKey now now clientStore).1 clientKey
          = requests r') as Hreq by (unfold requestsOf; by rewrite Hk').
  rewrite Hreq. split_and!.
  - done.
  - by apply sublist_length.
  - intros k Hne. by apply checkRateLimit_other.
Qed.

Lemma evaluate_denied_no_append_witness :
  requestsOf (evaluate "c1" 102000 {[ "c1" := fullSample 0 ]}).1 "c1"
    `sublist_of` requestsOf {[ "c1" := fullSample 0 ]} "c1"
  ∧ requestsOf (evaluate "c1" 300999 {[ "c1" := bannedSample ]}).1 "c1"
    `sublist_of` requestsOf {[ "c1" := bannedSample ]} "c1".
Proof.
  split.
  - apply (evaluate_denied_no_append "c1" 102000 {[ "c1" := fullSample 0 ]}).
    right. split; vm_compute; reflexivity.
  - apply (evaluate_denied_no_append "c1" 300999 {[ "c1" := bannedSample ]}).
    left. split; vm_compute; reflexivity.
Defined.

(** ** Violations and bans *)

Lemma violationsBounded_init : violationsBounded initRecord.
Proof. unfold violationsBounded, BAN_THRESHOLD. simpl. lia. Qed.

Lemma violationsBounded_prune now record :
  violationsBounded record → violationsBounded (pruneOldRequests now record).
Proof. done. Qed.

Lemma violationsBounded_window current pruneNow record :
  banned record = false →
  violationsBounded record →
  violationsBounded (windowDecision current pruneNow record).1.
Proof.
  unfold violationsBounded, windowDecision. intros Hb Hv. rewrite Hb in Hv.
  destruct (MAX_REQUESTS <=? _);
    [destruct (Z.leb_spec BAN_THRESHOLD (violations record + 1))|];
    simpl; rewrite ?Hb; lia.
Qed.

Lemma entry_bounded clientStore clientKey now record :
  storeBounded clientStore →
  entry clientStore clientKey now record →
  banned record = false ∧ violationsBounded record.
Proof.
  intros Hst [Hk|r Hk Hb|r Hk Hb Hle].
  - split; [done|apply violationsBounded_init].
  - split; [done|by eapply Hst].
  - split; [done|apply violationsBounded_init].
Qed.

Lemma storeBounded_insert clientStore k r :
  storeBounded clientStore → violationsBounded r →
  storeBounded (<[k := r]> clientStore).
Proof.
  intros Hst Hr k' r'. rewrite lookup_insert.
  case_decide; [by intros [= <-]|apply Hst].
Qed.

Lemma storeBounded_delete clientStore k :
  storeBounded clientStore → storeBounded (delete k clientStore).
Proof.
  intros Hst k' r'. rewrite lookup_delete.
  case_decide; [done|apply Hst].
Qed.

Lemma checkRateLimit_bounded clientKey current pruneNow clientStore :
  storeBounded clientStore →
  storeBounded (checkRateLimit clientKey current pruneNow clientStore).1.
Proof.
  intros Hst.
  assert (∀ record, entry clientStore clientKey current record →
            storeBounded
              (checkRateLimit clientKey current pruneNow clientStore).1)
    as Hentry.
  { intros record He. rewrite (checkRateLimit_entry _ _ _ _ _ He).
    destruct (entry_bounded _ _ _ _ Hst He) as [Hb Hv].
    pose proof (violationsBounded_window current pruneNow record Hb Hv) as Hw.
    destruct (windowDecision current pruneNow record) as [r' d].
    by apply storeBounded_insert. }
  destruct (clientStore !! clientKey) as [r|] eqn:Hk.
  - destruct (banned r) eqn:Hb.
    + destruct (Z.lt_ge_cases current (bannedUntil r)) as [Hlt|Hge].
      * by rewrite (checkRateLimit_banned _ _ _ _ r).
      * apply (Hentry initRecord). by eapply entry_expired.
    + apply (Hentry r). by apply entry_known.
  - apply (Hentry initRecord). by apply entry_new.
Qed.

Lemma cleanupPass_bounded now_ts pruneNow clientStore :
  storeBounded clientStore →
  storeBounded (cleanupPass now_ts pruneNow clientStore).1.
Proof.
  intros Hst k r.
  destruct (cleanupPass_spec now_ts pruneNow clientStore) as (Hlook & _).
  rewrite Hlook. destruct (clientStore !! k) as [r0|] eqn:Hk; [|done].
  case_decide; [done|]. intros [= <-].
  apply violationsBounded_prune. by eapply Hst.
Qed.

Lemma call_bounded c clientStore :
  storeBounded clientStore → storeBounded (call c clientStore).1.
Proof.
  intros Hst. destruct c as [k now|now|k|k|]; simpl.
  - pose proof (checkRateLimit_bounded k now now clientStore Hst) as H.
    unfold evaluate. by destruct (checkRateLimit k now now clientStore).
  - pose proof (cleanupPass_bounded now (λ _, now) clientStore Hst) as H.
    unfold sweep. by destruct (cleanupPass now (λ _, now) clientStore).
  - unfold unban, handleUnban. destruct (clientStore !! k); simpl; [|done].
    apply storeBounded_insert; [done|apply violationsBounded_init].
  - unfold reset, handleReset. destruct (clientStore !! k); simpl; [|done].
    by apply storeBounded_delete.
  - intros k r. simpl. by rewrite lookup_empty.
Qed.

Lemma run_bounded calls : ∀ clientStore,
  storeBounded clientStore → storeBounded (run calls clientStore).1.
Proof.
  induction calls as [|c rest IH]; intros st Hst; simpl; [done|].
  pose proof (call_bounded c st Hst) as Hc.
  destruct (call c st) as [s r]. simpl in Hc.
  specialize (IH s Hc). by destruct (run rest s).
Qed.

(** C9: in every store reachable from the empty one by [evaluate], [unban],
    [reset], [resetAll] and [sweep] calls, a record that is not banned has
    fewer than [BAN_THRESHOLD] violations; so a record whose counter has
    reached [BAN_THRESHOLD] is banned. *)
Theorem reachable_violations_bounded (clientStore : Store) k r :
  reachable clientStore →
  clientStore !! k = Some r →
  (banned r = false → violations r < BAN_THRESHOLD)
  ∧ (BAN_THRESHOLD ≤ violations r → banned r = true).
Proof.
  intros [calls <-] Hk.
  assert (violationsBounded r) as Hv.
  { eapply (run_bounded calls ∅); [|exact Hk].
    intros k' r'. by rewrite lookup_empty. }
  unfold violationsBounded in Hv. destruct (banned r); split; try done; lia.
Qed.

Lemma reachable_violations_bounded_witness :
  (∃ r, (run (sampleRun 2) ∅).1 !! "c1" = Some r
        ∧ violations r = 2 ∧ banned r = false
        ∧ violations r < BAN_THRESHOLD)
  ∧ (∃ r, (run (sampleRun 3) ∅).1 !! "c1" = Some r
          ∧ violations r = 3
          ∧ banned r = true).
Proof.
  split.
  - eexists. split; [vm_compute; reflexivity|].
    split; [reflexivity|]. split; [reflexivity|].
    refine (proj1 (reachable_violations_bounded (run (sampleRun 2) ∅).1
                     "c1" _ _ _) _).
    + by exists (sampleRun 2).
    + vm_compute. reflexivity.
    + reflexivity.
  - eexists. split; [vm_compute; reflexivity|].
    split; [reflexivity|].
    refine (proj2 (reachable_violations_bounded (run (sampleRun 3) ∅).1
                     "c1" _ _ _) _).
    + by exists (sampleRun 3).
    + vm_compute. reflexivity.
    + vm_compute. discriminate.
Defined.

(** ** The sliding window *)

















(** * Further properties of the engine *)

(** ** One client at a time *)

Lemma checkRateLimit_clientStep clientKey current pruneNow clientStore :
  checkRateLimit clientKey current pruneNow clientStore =
  (<[clientKey := (clientStep current pruneNow
                     (clientStore !! clientKey)).1]> clientStore,
   (clientStep current pruneNow (clientStore !! clientKey)).2).
Proof.
  unfold clientStep.
  destruct (clientStore !! clientKey) as [r|] eqn:Hk;
    cbn [default from_option]; unfold id.
  - destruct (banned r) eqn:Hb; cbn [andb].
    + destruct (Z.ltb_spec current (bannedUntil r)) as [Hlt|Hge].
      * rewrite (checkRateLimit_banned _ _ _ _ r) by done.
        cbn [fst snd]. by rewrite insert_id.
      * rewrite (checkRateLimit_entry _ _ _ _ initRecord)
          by (by eapply entry_expired).
        by destruct (windowDecision current pruneNow initRecord).
    + rewrite (checkRateLimit_entry _ _ _ _ r) by (by apply entry_known).
      by destruct (windowDecision current pruneNow r).
  - change (banned initRecord) with false. cbn [andb].
    rewrite (checkRateLimit_entry _ _ _ _ initRecord) by (by apply entry_new).
    by destruct (windowDecision current pruneNow initRecord).
Qed.

Lemma Math_ceil_div_pos a b : 0 < b → 0 < a → 1 ≤ Math_ceil_div a b.
Proof.
  intros Hb Ha. pose proof (Math_ceil_div_spec a b Hb). nia.
Qed.

Lemma Math_ceil_div_le a b n : 0 < b → a ≤ b * n → Math_ceil_div a b ≤ n.
Proof.
  intros Hb Ha. pose proof (Math_ceil_div_spec a b Hb). nia.
Qed.

(** The oldest timestamp [checkRateLimit] computes [resetIn] from is in the
    window of [current], provided the clock did not go back between the two
    readings. *)
Lemma oldest_in_window current pruneNow reqs tail oldest :
  current ≤ pruneNow →
  (head (inWindow pruneNow reqs ++ tail) = Some oldest
   → Forall (λ t, t = current) tail
   → current - WINDOW_MS < oldest).
Proof.
  intros Hle Hhd Htail.
  destruct (inWindow pruneNow reqs) as [|t l] eqn:Hl; simpl in Hhd.
  - destruct tail as [|t tl]; [done|]. simpl in Hhd. injection Hhd as <-.
    apply Forall_cons in Htail as [-> _]. unfold WINDOW_MS. lia.
  - injection Hhd as <-.
    assert (t ∈ inWindow pruneNow reqs) as Ht by (rewrite Hl; left).
    apply inWindow_elem in Ht as [_ Ht]. lia.
Qed.

Lemma windowDecision_bounds current pruneNow record :
  current ≤ pruneNow →
  let d := (windowDecision current pruneNow record).2 in
  0 ≤ remaining d < MAX_REQUESTS ∧ 1 ≤ resetIn d.
Proof.
  intros Hle. unfold windowDecision.
  destruct (Z.leb_spec MAX_REQUESTS
              (Z.of_nat (length (inWindow pruneNow (requests record)))))
    as [Hfull|Hfree].
  - destruct (BAN_THRESHOLD <=? violations record + 1); simpl.
    + split; [unfold MAX_REQUESTS; lia|]. by vm_compute.
    + split; [unfold MAX_REQUESTS; lia|].
      apply Math_ceil_div_pos; [lia|].
      destruct (head (inWindow pruneNow (requests record))) as [t|] eqn:Hhd;
        simpl; [|unfold WINDOW_MS; lia].
      destruct (Z.eqb_spec t 0); [unfold WINDOW_MS; lia|].
      pose proof (oldest_in_window current pruneNow (requests record) [] t
                    Hle) as Hold.
      rewrite app_nil_r in Hold. specialize (Hold Hhd ltac:(done)). lia.
  - simpl. split.
    + rewrite length_app. simpl. lia.
    + apply Math_ceil_div_pos; [lia|].
      destruct (head (inWindow pruneNow (requests record) ++ [current]))
        as [t|] eqn:Hhd; simpl; [|unfold WINDOW_MS; lia].
      pose proof (oldest_in_window current pruneNow (requests record)
                    [current] t Hle Hhd) as Hold.
      specialize (Hold ltac:(by apply Forall_singleton)). lia.
Qed.




(** X2: clients do not interfere.  Two calls of [checkRateLimit] for
    different clients give the same two decisions and the same store in
    either order. *)
Theorem checkRateLimit_commute k1 k2 c1 p1 c2 p2 (clientStore : Store) :
  k1 ≠ k2 →
  let first := checkRateLimit k1 c1 p1 clientStore in
  let second := checkRateLimit k2 c2 p2 first.1 in
  let first' := checkRateLimit k2 c2 p2 clientStore in
  let second' := checkRateLimit k1 c1 p1 first'.1 in
  second.1 = second'.1 ∧ first.2 = second'.2 ∧ second.2 = first'.2.
Proof.
  intros Hne first second first' second'.
  subst first second first' second'.
  rewrite !checkRateLimit_clientStep. simpl.
  rewrite !lookup_insert_ne by done.
  split_and!; [|done|done].
  by apply insert_insert_ne.
Qed.

Lemma checkRateLimit_commute_witness :
  (checkRateLimit "c2" 102005 102005
     (checkRateLimit "c1" 102000 102001 {[ "c1" := fullSample 0 ]}).1).1
  = (checkRateLimit "c1" 102000 102001
       (checkRateLimit "c2" 102005 102005 {[ "c1" := fullSample 0 ]}).1).1.
Proof.
  apply (checkRateLimit_commute "c1" "c2" 102000 102001 102005 102005
           {[ "c1" := fullSample 0 ]}).
  discriminate.
Defined.

(** ** Pruning twice *)

(** X3: pruning at [a] and then at [b] is pruning once at the later of the
    two instants; in particular pruning is idempotent. *)
Theorem pruneOldRequests_twice a b record :
  pruneOldRequests b (pruneOldRequests a record)
  = pruneOldRequests (Z.max a b) record
  ∧ pruneOldRequests a (pruneOldRequests a record) = pruneOldRequests a record.
Proof.
  assert (∀ a b, pruneOldRequests b (pruneOldRequests a record)
                 = pruneOldRequests (Z.max a b) record) as Hmax.
  { intros a' b'. rewrite !pruneOldRequests_eq. simpl. f_equal.
    unfold inWindow. rewrite list_filter_filter.
    apply list_filter_iff. intros t. lia. }
  split; [apply Hmax|]. rewrite Hmax. by rewrite Z.max_id.
Qed.

(** ** Invariants of the records *)

Lemma call_store c (clientStore : Store) :
  (call c clientStore).1 =
  match c with
  | Evaluate k now => (checkRateLimit k now now clientStore).1
  | Sweep now => (cleanupPass now (λ _, now) clientStore).1
  | Unban k => (handleUnban k clientStore).1
  | Reset k => (handleReset k clientStore).1
  | ResetAll => ∅
  end.
Proof.
  destruct c as [k now|now|k|k|]; simpl; unfold evaluate, sweep, unban, reset.
  - by destruct (checkRateLimit k now now clientStore).
  - by destruct (cleanupPass now (λ _, now) clientStore).
  - by destruct (handleUnban k clientStore).
  - by destruct (handleReset k clientStore).
  - done.
Qed.

Lemma clientStep_record (P : ClientRecord → Prop) current pruneNow stored :
  P initRecord →
  (∀ r, banned r = false → P r → P (windowDecision current pruneNow r).1) →
  (∀ r, stored = Some r → P r) →
  P (clientStep current pruneNow stored).1.
Proof.
  intros Hinit Hwin Hstored. unfold clientStep.
  destruct stored as [r|]; cbn [default from_option]; unfold id.
  - destruct (banned r) eqn:Hb; cbn [andb].
    + destruct (current <? bannedUntil r); [by apply Hstored|].
      by apply Hwin.
    + apply Hwin; [done|by apply Hstored].
  - change (banned initRecord) with false. cbn [andb]. by apply Hwin.
Qed.

(** A property of records that the fresh record has and that pruning and
    the window check keep is kept by every call. *)
Lemma call_records (P : ClientRecord → Prop) c (clientStore : Store) :
  P initRecord →
  (∀ now r, P r → P (pruneOldRequests now r)) →
  (∀ current pruneNow r,
     banned r = false → P r → P (windowDecision current pruneNow r).1) →
  map_Forall (λ _, P) clientStore →
  map_Forall (λ _, P) (call c clientStore).1.
Proof.
  intros Hinit Hprune Hwin Hst. rewrite call_store.
  destruct c as [k now|now|k|k|].
  - rewrite checkRateLimit_clientStep. cbn [fst].
    apply map_Forall_insert_2; [|done].
    apply clientStep_record; [done|by apply Hwin|].
    intros r Hk. by apply (Hst k).
  - intros k r.
    destruct (cleanupPass_spec now (λ _, now) clientStore) as (Hlook & _).
    rewrite Hlook. destruct (clientStore !! k) as [r0|] eqn:Hk; [|done].
    case_decide; [done|]. intros [= <-]. apply Hprune. by apply (Hst k).
  - unfold handleUnban. destruct (clientStore !! k); [|done].
    by apply map_Forall_insert_2.
  - unfold handleReset. destruct (clientStore !! k); [|done].
    by apply map_Forall_delete.
  - apply map_Forall_empty.
Qed.

Lemma run_records (P : ClientRecord → Prop) calls :
  P initRecord →
  (∀ now r, P r → P (pruneOldRequests now r)) →
  (∀ current pruneNow r,
     banned r = false → P r → P (windowDecision current pruneNow r).1) →
  ∀ clientStore : Store,
    map_Forall (λ _, P) clientStore →
    map_Forall (λ _, P) (run calls clientStore).1.
Proof.
  intros Hinit Hprune Hwin.
  induction calls as [|c rest IH]; intros st Hst; simpl; [done|].
  pose proof (call_records P c st Hinit Hprune Hwin Hst) as Hc.
  destruct (call c st) as [s r]. simpl in Hc.
  specialize (IH s Hc). by destruct (run rest s).
Qed.

Lemma recordCapped_window current pruneNow record :
  banned record = false →
  recordCapped record →
  recordCapped (windowDecision current pruneNow record).1.
Proof.
  unfold recordCapped, windowDecision. intros Hb [Hlen Hbu].
  pose proof (length_filter (λ t, pruneNow - WINDOW_MS < t) (requests record))
    as Hfl. fold (inWindow pruneNow (requests record)) in Hfl.
  destruct (Z.leb_spec MAX_REQUESTS
              (Z.of_nat (length (inWindow pruneNow (requests record)))))
    as [Hfull|Hfree].
  - destruct (BAN_THRESHOLD <=? violations record + 1); simpl;
      (split; [lia|auto; done]).
  - simpl. rewrite length_app. simpl. split; [lia|auto].
Qed.

(** X4: in every store reachable from the empty one, a record holds at most
    [MAX_REQUESTS] timestamps, and a record that is not banned has
    [bannedUntil = 0]. *)
Theorem reachable_capacity (clientStore : Store) k r :
  reachable clientStore →
  clientStore !! k = Some r →
  Z.of_nat (length (requests r)) ≤ MAX_REQUESTS
  ∧ (banned r = false → bannedUntil r = 0).
Proof.
  intros [calls <-] Hk.
  apply (run_records recordCapped calls) with (clientStore := ∅) (i := k);
    [| | |apply map_Forall_empty|exact Hk].
  - split; [by vm_compute|done].
  - intros now r0 [Hlen Hbu]. split; [|done].
    rewrite pruneOldRequests_requests.
    pose proof (length_filter (λ t, now - WINDOW_MS < t) (requests r0)) as Hfl.
    fold (inWindow now (requests r0)) in Hfl. lia.
  - intros c p r0. apply recordCapped_window.
Qed.

Lemma reachable_capacity_witness :
  ∃ r, (run (sampleRun 3) ∅).1 !! "c1" = Some r
       ∧ Z.of_nat (length (requests r)) ≤ MAX_REQUESTS.
Proof.
  eexists. split; [vm_compute; reflexivity|].
  refine (proj1 (reachable_capacity (run (sampleRun 3) ∅).1 "c1" _ _ _)).
  - by exists (sampleRun 3).
  - vm_compute. reflexivity.
Defined.

(** ** Runs under a clock that never goes back *)

Lemma StronglySorted_inWindow now reqs :
  StronglySorted Z.le reqs → StronglySorted Z.le (inWindow now reqs).
Proof.
  unfold inWindow. induction 1 as [|t l Hl IH Ht]; [constructor|].
  rewrite filter_cons. case_decide; [|done].
  constructor; [done|].
  apply Forall_forall. intros x Hx. apply list_elem_of_filter in Hx as [_ Hx].
  by eapply Forall_forall in Ht.
Qed.

Lemma Forall_inWindow (P : Z → Prop) now reqs :
  Forall P reqs → Forall P (inWindow now reqs).
Proof.
  intros Hall. apply Forall_forall. intros x Hx.
  apply inWindow_elem in Hx as [Hx _]. by eapply Forall_forall in Hall.
Qed.

Lemma recordTimely_mono T T' record :
  T ≤ T' → recordTimely T record → recordTimely T' record.
Proof.
  intros Hle (Hpast & Hsorted & Hban). split_and!; [|done|].
  - eapply Forall_impl; [exact Hpast|]. intros t Ht. simpl in Ht. lia.
  - intros Hb. specialize (Hban Hb). lia.
Qed.

Lemma recordTimely_init T : recordTimely T initRecord.
Proof. split_and!; [constructor|constructor|done]. Qed.

Lemma recordTimely_prune T now record :
  recordTimely T record → recordTimely T (pruneOldRequests now record).
Proof.
  intros (Hpast & Hsorted & Hban). rewrite pruneOldRequests_eq.
  split_and!; simpl; [|by apply StronglySorted_inWindow|done].
  by apply Forall_inWindow.
Qed.

Lemma recordTimely_snoc now reqs :
  Forall (λ t, t ≤ now) reqs → StronglySorted Z.le reqs →
  Forall (λ t, t ≤ now) (reqs ++ [now])
  ∧ StronglySorted Z.le (reqs ++ [now]).
Proof.
  intros Hpast Hsorted. split.
  - apply Forall_app. split; [done|]. by apply Forall_singleton.
  - apply StronglySorted_app. split_and!; [|done|repeat constructor].
    intros x1 x2 Hx1 Hx2. apply list_elem_of_singleton in Hx2 as ->.
    by eapply Forall_forall in Hpast.
Qed.

Lemma windowDecision_timely now record :
  banned record = false →
  recordTimely now record →
  recordTimely now (windowDecision now now record).1
  ∧ replyTimely (Decided (windowDecision now now record).2).
Proof.
  intros Hb (Hpast & Hsorted & _).
  pose proof (windowDecision_bounds now now record ltac:(lia)) as [_ Hlow].
  cbv zeta in Hlow. split.
  - unfold windowDecision.
    destruct (MAX_REQUESTS <=? _);
      [destruct (BAN_THRESHOLD <=? _)|]; simpl.
    + split_and!; simpl;
        [by apply Forall_inWindow|by apply StronglySorted_inWindow|].
      intros _. lia.
    + split_and!; simpl;
        [by apply Forall_inWindow|by apply StronglySorted_inWindow|].
      by rewrite Hb.
    + destruct (recordTimely_snoc now (inWindow now (requests record)))
        as [Hp Hs];
        [by apply Forall_inWindow|by apply StronglySorted_inWindow|].
      split_and!; simpl; [done|done|by rewrite Hb].
  - simpl. split; [exact Hlow|]. clear Hlow. unfold windowDecision.
    destruct (MAX_REQUESTS <=? _);
      [destruct (BAN_THRESHOLD <=? _)|]; simpl.
    + by vm_compute.
    + change (WINDOW_MS / 1000) with 60.
      apply Math_ceil_div_le; [lia|].
      destruct (head (inWindow now (requests record))) as [t|] eqn:Hhd;
        simpl; [|unfold WINDOW_MS; lia].
      destruct (Z.eqb_spec t 0); [unfold WINDOW_MS; lia|].
      apply head_Some_elem_of, inWindow_elem in Hhd as [Hin _].
      eapply Forall_forall in Hpast; [|exact Hin]. simpl in Hpast.
      unfold WINDOW_MS. lia.
    + change (WINDOW_MS / 1000) with 60.
      apply Math_ceil_div_le; [lia|].
      destruct (head (inWindow now (requests record) ++ [now]))
        as [t|] eqn:Hhd; simpl; [|unfold WINDOW_MS; lia].
      apply head_Some_elem_of, elem_of_app in Hhd as [Hin|Hin].
      * apply inWindow_elem in Hin as [Hin _].
        eapply Forall_forall in Hpast; [|exact Hin]. simpl in Hpast.
        unfold WINDOW_MS. lia.
      * apply list_elem_of_singleton in Hin as ->. unfold WINDOW_MS. lia.
Qed.

Lemma clientStep_timely now stored :
  (∀ r, stored = Some r → recordTimely now r) →
  recordTimely now (clientStep now now stored).1
  ∧ replyTimely (Decided (clientStep now now stored).2).
Proof.
  intros Hstored. unfold clientStep.
  destruct stored as [r|]; cbn [default from_option]; unfold id.
  - specialize (Hstored r eq_refl).
    destruct (banned r) eqn:Hb; cbn [andb].
    + destruct (Z.ltb_spec now (bannedUntil r)) as [Hlt|Hge].
      * split; [done|]. simpl. destruct Hstored as (_ & _ & Hban).
        specialize (Hban Hb). split.
        -- apply Math_ceil_div_pos; lia.
        -- change (BAN_DURATION_MS / 1000) with 300.
           apply Math_ceil_div_le; [lia|]. unfold BAN_DURATION_MS in *. lia.
      * apply windowDecision_timely; [done|apply recordTimely_init].
    + by apply windowDecision_timely.
  - change (banned initRecord) with false. cbn [andb].
    apply windowDecision_timely; [done|apply recordTimely_init].
Qed.

Lemma call_timely c T (clientStore : Store) :
  map_Forall (λ _, recordTimely T) clientStore →
  (∀ now, callTime c = Some now → T ≤ now) →
  map_Forall (λ _, recordTimely (default T (callTime c)))
    (call c clientStore).1
  ∧ replyTimely (call c clientStore).2.
Proof.
  intros Hst Htime.
  assert (∀ now, T ≤ now → map_Forall (λ _, recordTimely now) clientStore)
    as Hadv.
  { intros now Hle k r Hk. eapply recordTimely_mono; [exact Hle|].
    by apply (Hst k). }
  destruct c as [k now|now|k|k|]; simpl in *.
  - specialize (Hadv now (Htime now eq_refl)).
    unfold evaluate. rewrite checkRateLimit_clientStep.
    destruct (clientStep_timely now (clientStore !! k)) as [Hr Hd].
    { intros r Hk. by apply (Hadv k). }
    split; [|exact Hd]. by apply map_Forall_insert_2.
  - specialize (Hadv now (Htime now eq_refl)).
    unfold sweep.
    destruct (cleanupPass_spec now (λ _, now) clientStore) as (Hlook & _).
    destruct (cleanupPass now (λ _, now) clientStore) as [s n].
    simpl in *. split; [|done].
    intros k r. rewrite Hlook.
    destruct (clientStore !! k) as [r0|] eqn:Hk; [|done].
    case_decide; [done|]. intros [= <-].
    apply recordTimely_prune. by apply (Hadv k).
  - unfold unban, handleUnban. destruct (clientStore !! k); simpl; [|done].
    split; [|done]. apply map_Forall_insert_2; [apply recordTimely_init|done].
  - unfold reset, handleReset. destruct (clientStore !! k); simpl; [|done].
    split; [|done]. by apply map_Forall_delete.
  - split; [apply map_Forall_empty|done].
Qed.

Lemma run_timely calls : ∀ (clientStore : Store) T,
  map_Forall (λ _, recordTimely T) clientStore →
  Forall (λ t, T ≤ t) (omap callTime calls) →
  StronglySorted Z.le (omap callTime calls) →
  (∃ T', map_Forall (λ _, recordTimely T') (run calls clientStore).1)
  ∧ Forall replyTimely (run calls clientStore).2.
Proof.
  induction calls as [|c rest IH]; intros st T Hst Hafter Hsorted.
  - split; [by exists T|constructor].
  - assert (∀ now, callTime c = Some now → T ≤ now) as Htime.
    { intros now Hnow. simpl in Hafter. rewrite Hnow in Hafter.
      by apply Forall_cons in Hafter as [? _]. }
    destruct (call_timely c T st Hst Htime) as [Hs Hr].
    simpl. destruct (call c st) as [s r]. simpl in Hs, Hr.
    destruct (IH s (default T (callTime c))) as [HT' Hrs]; [done| | |].
    + simpl in Hafter, Hsorted. destruct (callTime c) as [now|]; simpl.
      * by inversion Hsorted.
      * done.
    + simpl in Hsorted. destruct (callTime c); [by inversion Hsorted|done].
    + destruct (run rest s) as [s' rs]. simpl in *.
      split; [done|by constructor].
Qed.

Lemma chronological_start calls :
  chronological calls →
  Forall (λ t, default 0 (head (omap callTime calls)) ≤ t)
    (omap callTime calls).
Proof.
  unfold chronological. intros Hsorted.
  destruct (omap callTime calls) as [|t ts]; [done|]. simpl.
  apply Forall_cons. split; [lia|by inversion Hsorted].
Qed.

(** X5: in a run from the empty store whose clock never goes back, every
    decision asks the client to wait at least one second, at most
    [BAN_DURATION_MS / 1000] seconds when it is a 403 and at most
    [WINDOW_MS / 1000] seconds otherwise. *)
Theorem chronological_resetIn calls :
  chronological calls →
  Forall replyTimely (run calls ∅).2.
Proof.
  intros Hsorted.
  apply (run_timely calls ∅ (default 0 (head (omap callTime calls))));
    [apply map_Forall_empty|by apply chronological_start|done].
Qed.

Lemma chronological_resetIn_witness :
  Forall replyTimely (run boundaryRun ∅).2.
Proof.
  apply (chronological_resetIn boundaryRun).
  unfold chronological. vm_compute omap.
  repeat (constructor; try (vm_compute; discriminate)).
Defined.

(** X6: in a run from the empty store whose clock never goes back, the
    timestamps of every record are in non-decreasing order, so the first
    one, which [checkRateLimit] takes for the oldest, is the smallest. *)
Theorem chronological_sorted calls k r :
  chronological calls →
  (run calls ∅).1 !! k = Some r →
  StronglySorted Z.le (requests r)
  ∧ ∀ oldest, head (requests r) = Some oldest →
              Forall (λ t, oldest ≤ t) (requests r).
Proof.
  intros Hsorted Hk.
  destruct (run_timely calls ∅ (default 0 (head (omap callTime calls))))
    as [[T' Hst] _];
    [apply map_Forall_empty|by apply chronological_start|done|].
  destruct (Hst k r Hk) as (_ & Hs & _). split; [done|].
  intros oldest Hhd. destruct (requests r) as [|t l]; [done|].
  injection Hhd as ->. apply StronglySorted_cons in Hs as [Hall _].
  apply Forall_cons. split; [lia|done].
Qed.

Lemma chronological_sorted_witness :
  ∃ r, (run boundaryRun ∅).1 !! "c1" = Some r
       ∧ StronglySorted Z.le (requests r).
Proof.
  eexists. split; [vm_compute; reflexivity|].
  refine (proj1 (chronological_sorted boundaryRun "c1" _ _ _)).
  - unfold chronological. vm_compute omap.
    repeat (constructor; try (vm_compute; discriminate)).
  - vm_compute. reflexivity.
Defined.

(** ** The sweep *)

Lemma sweep_lookup now (clientStore : Store) k :
  (sweep now clientStore).1 !! k =
  match clientStore !! k with
  | Some r =>
      if decide (evicts now now r) then None
      else Some (pruneOldRequests now r)
  | None => None
  end.
Proof.
  unfold sweep.
  destruct (cleanupPass_spec now (λ _, now) clientStore) as (Hlook & _).
  apply Hlook.
Qed.

Lemma sweep_count now (clientStore : Store) :
  (sweep now clientStore).2
  = Z.of_nat (size clientStore) - Z.of_nat (size (sweep now clientStore).1).
Proof.
  unfold sweep.
  destruct (cleanupPass_spec now (λ _, now) clientStore) as (_ & _ & Hsize).
  lia.
Qed.

Lemma evicts_later now now' record :
  now ≤ now' →
  evicts now' now' (pruneOldRequests now record) ↔ evicts now' now' record.
Proof.
  intros Hle. unfold evicts, idle.
  rewrite !pruneOldRequests_eq. simpl.
  by rewrite (inWindow_inWindow now now') by done.
Qed.

Lemma evicts_mono now now' record :
  now ≤ now' → evicts now now record → evicts now' now' record.
Proof.
  intros Hle [[Hb Hbu]|(Hreq & Hv & Hb)].
  - left. split; [done|lia].
  - right. rewrite pruneOldRequests_eq in *. simpl in *.
    split_and!; [|done|done].
    by rewrite <- (inWindow_inWindow now now'), Hreq by done.
Qed.

(** X7: two sweeps in a row, the second no earlier than the first, leave
    the store that the second one alone would leave, and together evict as
    many records as it would; a second sweep at the same instant evicts
    nothing and changes nothing. *)
Theorem sweep_twice now now' (clientStore : Store) :
  now ≤ now' →
  (sweep now' (sweep now clientStore).1).1 = (sweep now' clientStore).1
  ∧ (sweep now clientStore).2 + (sweep now' (sweep now clientStore).1).2
    = (sweep now' clientStore).2
  ∧ sweep now (sweep now clientStore).1 = ((sweep now clientStore).1, 0).
Proof.
  assert (∀ a b (s : Store), a ≤ b →
            (sweep b (sweep a s).1).1 = (sweep b s).1) as Hstore.
  { intros a b s Hle. apply map_eq. intros k.
    rewrite !sweep_lookup. destruct (s !! k) as [r|]; [|done].
    destruct (decide (evicts a a r)) as [Ha|Ha].
    - rewrite decide_True by (by eapply evicts_mono). done.
    - destruct (decide (evicts b b r)) as [Hb|Hb].
      + rewrite decide_True by (by apply evicts_later). done.
      + rewrite decide_False by (by rewrite evicts_later).
        f_equal. rewrite !pruneOldRequests_eq. simpl.
        by rewrite (inWindow_inWindow a b) by done. }
  intros Hle. split_and!.
  - by apply Hstore.
  - rewrite !sweep_count, Hstore by done. lia.
  - pose proof (Hstore now now clientStore ltac:(lia)) as Hsame.
    pose proof (sweep_count now (sweep now clientStore).1) as Hn.
    rewrite Hsame in Hn.
    destruct (sweep now (sweep now clientStore).1) as [s n]. simpl in *.
    f_equal; [exact Hsame|lia].
Qed.

Lemma sweep_twice_witness :
  sweep 120000
    (sweep 120000 {[ "idle" := initRecord; "busy" := admitted [100000] ]}).1
  = ((sweep 120000
        {[ "idle" := initRecord; "busy" := admitted [100000] ]}).1, 0).
Proof.
  apply (sweep_twice 120000 120000
           {[ "idle" := initRecord; "busy" := admitted [100000] ]}).
  vm_compute. discriminate.
Defined.

(** X8: a sweep keeps every record that has violations or a ban still
    running, however old its timestamps are, and changes nothing but the
    timestamps of the records it keeps. *)
Theorem sweep_retains now (clientStore : Store) k r :
  clientStore !! k = Some r →
  ((banned r = false ∧ violations r ≠ 0)
   ∨ (banned r = true ∧ now < bannedUntil r) →
   (sweep now clientStore).1 !! k = Some (pruneOldRequests now r))
  ∧ (∀ r', (sweep now clientStore).1 !! k = Some r' →
           violations r' = violations r
           ∧ banned r' = banned r
           ∧ bannedUntil r' = bannedUntil r
           ∧ requests r' `sublist_of` requests r).
Proof.
  intros Hk. rewrite sweep_lookup, Hk. split.
  - intros Hkeep. rewrite decide_False; [done|].
    intros [[Hb Hbu]|(_ & Hv & Hb)]; simpl in *;
      destruct Hkeep as [[? ?]|[? ?]]; congruence || lia.
  - intros r'. case_decide; [done|]. intros [= <-].
    rewrite pruneOldRequests_eq. simpl. split_and!; try done.
    apply inWindow_sublist.
Qed.

Lemma sweep_retains_witness :
  (sweep 9000000 {[ "c1" := fullSample 1 ]}).1 !! "c1"
  = Some (pruneOldRequests 9000000 (fullSample 1)).
Proof.
  refine (proj1 (sweep_retains 9000000 {[ "c1" := fullSample 1 ]} "c1"
                   (fullSample 1) _) _).
  - vm_compute. reflexivity.
  - left. split; [reflexivity|discriminate].
Defined.

(** ** What a client can observe *)











(** ** From the first request to the ban *)




(** X11: while a ban runs, calls change nothing: any number of [evaluate]
    calls of a banned client at instants before [bannedUntil], in any
    order, are all denied with 403 and
    [resetIn = ceil((bannedUntil - now) / 1000)], and the store stays what
    it was, so the ban is neither extended nor shortened. *)
Theorem ban_holds (clientStore : Store) clientKey record ts :
  clientStore !! clientKey = Some record →
  banned record = true →
  Forall (λ t, t < bannedUntil record) ts →
  run (Evaluate clientKey <$> ts) clientStore
  = (clientStore,
     (λ t, Decided (stillBanned (bannedUntil record) t)) <$> ts).
Proof.
  intros Hk Hb. induction 1 as [|t ts Ht _ IH]; [done|].
  rewrite !fmap_cons. cbn [run call]. unfold evaluate at 1.
  rewrite (checkRateLimit_banned _ _ _ _ record) by done.
  by rewrite IH.
Qed.

Lemma ban_holds_witness :
  run (Evaluate "c1" <$> [300999; 1001; 250000]) {[ "c1" := bannedSample ]}
  = ({[ "c1" := bannedSample ]},
     (λ t, Decided (stillBanned 301000 t)) <$> [300999; 1001; 250000]).
Proof.
  apply (ban_holds {[ "c1" := bannedSample ]} "c1" bannedSample).
  - vm_compute. reflexivity.
  - reflexivity.
  - repeat constructor.
Defined.

(** ** The status and snapshot handlers *)

Lemma bannedCount_filter (clientStore : Store) :
  map_fold (λ (key : string) (record : ClientRecord) (bannedCount : Z),
              if banned record then bannedCount + 1 else bannedCount)
           0 clientStore
  = Z.of_nat (size (filter (λ kr : string * ClientRecord,
                              banned kr.2 = true) clientStore)).
Proof.
  apply (map_fold_weak_ind
           (λ (n : Z) (m : Store),
              n = Z.of_nat (size (filter (λ kr : string * ClientRecord,
                                            banned kr.2 = true) m)))).
  - by rewrite map_filter_empty, map_size_empty.
  - intros k r m n Hk ->. destruct (banned r) eqn:Hb.
    + rewrite map_filter_insert_True by done.
      rewrite map_size_insert_None by (by rewrite map_lookup_filter, Hk).
      lia.
    + rewrite map_filter_insert_not'; [done|simpl; congruence|].
      intros y Hy. by rewrite Hk in Hy.
Qed.

(** X12: [handleStatus] answers 200 and does not look at the clock:
    [tracked_clients] is the number of records, [banned_clients] the number
    of records whose [banned] flag is set, whether or not their ban is over,
    and it is at most [tracked_clients]. *)
Theorem handleStatus_counts uptime (clientStore : Store) :
  let body := (handleStatus uptime clientStore).2 in
  (handleStatus uptime clientStore).1 = 200
  ∧ tracked_clients body = Z.of_nat (size clientStore)
  ∧ banned_clients body
    = Z.of_nat (size (filter (λ kr : string * ClientRecord,
                                banned kr.2 = true) clientStore))
  ∧ 0 ≤ banned_clients body ≤ tracked_clients body.
Proof.
  unfold handleStatus. simpl. rewrite bannedCount_filter.
  split_and!; [done|done|done|lia|].
  pose proof (map_size_filter (λ kr : string * ClientRecord,
                                 banned kr.2 = true) clientStore).
  lia.
Qed.

(** X13: right after a sweep at [now], [banned_clients] is the number of
    records whose ban was still running at [now]. *)
Theorem handleStatus_after_sweep uptime now (clientStore : Store) :
  banned_clients (handleStatus uptime (sweep now clientStore).1).2
  = Z.of_nat (size (filter (λ kr : string * ClientRecord,
                              banned kr.2 = true ∧ now < bannedUntil kr.2)
                           clientStore)).
Proof.
  unfold handleStatus. simpl. rewrite bannedCount_filter. f_equal.
  rewrite <- !(size_dom (D := gset string)). f_equal.
  apply set_eq. intros k. rewrite !elem_of_dom. unfold is_Some.
  setoid_rewrite map_lookup_filter_Some. simpl.
  setoid_rewrite sweep_lookup.
  destruct (clientStore !! k) as [r|];
    [|split; intros (? & [=] & _)].
  destruct (decide (evicts now now r)) as [He|He].
  - split; [intros (? & [=] & _)|].
    intros (r' & [= <-] & Hb & Hlt). exfalso.
    destruct He as [[_ Hbu]|(_ & _ & Hnb)]; [lia|].
    simpl in Hnb. congruence.
  - split.
    + intros (r' & [= <-] & Hb). simpl in Hb. exists r.
      split_and!; [done|done|].
      destruct (Z.lt_ge_cases now (bannedUntil r)) as [?|Hge]; [done|].
      exfalso. apply He. by left.
    + intros (r' & [= <-] & Hb & Hlt). eexists. split; [done|]. done.
Qed.

Lemma handleAdmin_lookup toISOString (clientStore : Store) k :
  (handleAdmin toISOString clientStore).2 !! k
  = summarize toISOString <$> clientStore !! k.
Proof.
  unfold handleAdmin. simpl.
  apply (map_fold_weak_ind
           (λ (snapshot : gmap string ClientSummary) (m : Store),
              snapshot !! k = summarize toISOString <$> m !! k)).
  - by rewrite !lookup_empty.
  - intros i r m snapshot Hi IH. rewrite !lookup_insert. by case_decide.
Qed.

(** X14: the snapshot of [handleAdmin] has an entry for exactly the keys of
    the store; the entry reports the record's violations and flag, a
    [banned_until] exactly when the record is banned, and as
    [active_requests_in_window] the number of timestamps the record holds,
    pruned or not, which is never less than the number in the window of any
    instant.  In a store reachable from the empty one that number is at most
    [MAX_REQUESTS]. *)
Theorem handleAdmin_snapshot toISOString (clientStore : Store) k :
  (handleAdmin toISOString clientStore).1 = 200
  ∧ match clientStore !! k with
    | None => (handleAdmin toISOString clientStore).2 !! k = None
    | Some r =>
        ∃ s, (handleAdmin toISOString clientStore).2 !! k = Some s
             ∧ summary_violations s = violations r
             ∧ summary_banned s = banned r
             ∧ (banned_until s = None ↔ banned r = false)
             ∧ active_requests_in_window s = Z.of_nat (length (requests r))
             ∧ (∀ now, Z.of_nat (length (inWindow now (requests r)))
                       ≤ active_requests_in_window s)
             ∧ (reachable clientStore →
                active_requests_in_window s ≤ MAX_REQUESTS)
    end.
Proof.
  split; [done|]. rewrite handleAdmin_lookup.
  destruct (clientStore !! k) as [r|] eqn:Hk; [|done].
  eexists. split; [reflexivity|]. simpl. split_and!; try done.
  - destruct (banned r); split; done.
  - intros now.
    pose proof (length_filter (λ t, now - WINDOW_MS < t) (requests r)) as Hl.
    fold (inWindow now (requests r)) in Hl. lia.
  - intros [calls <-].
    apply (run_records recordCapped calls) with (clientStore := ∅) (i := k)
        (x := r);
      [| | |apply map_Forall_empty|exact Hk].
    + split; [by vm_compute|done].
    + intros now r0 [Hlen Hbu]. split; [|done].
      rewrite pruneOldRequests_requests.
      pose proof (length_filter (λ t, now - WINDOW_MS < t) (requests r0))
        as Hfl.
      fold (inWindow now (requests r0)) in Hfl. lia.
    + intros c p r0. apply recordCapped_window.
Qed.

(** X15: in the snapshot taken right after a sweep at [now], every
    [active_requests_in_window] is the number of the record's timestamps in
    the window of [now]. *)
Theorem handleAdmin_after_sweep toISOString now (clientStore : Store) k s :
  (handleAdmin toISOString (sweep now clientStore).1).2 !! k = Some s →
  ∃ r, clientStore !! k = Some r
       ∧ active_requests_in_window s
         = Z.of_nat (length (inWindow now (requests r)))
       ∧ Forall (λ t, now - WINDOW_MS < t) (inWindow now (requests r)).
Proof.
  rewrite handleAdmin_lookup, sweep_lookup.
  destruct (clientStore !! k) as [r|]; [|done].
  case_decide; [done|]. simpl. intros [= <-]. exists r.
  rewrite pruneOldRequests_eq. simpl. split_and!; [done|done|].
  apply Forall_forall. intros t Ht. by apply inWindow_elem in Ht as [_ ?].
Qed.

Lemma handleAdmin_after_sweep_witness :
  ∃ r, ({[ "c1" := admitted [40000; 100000] ]} : Store) !! "c1" = Some r
       ∧ 1 = Z.of_nat (length (inWindow 102000 (requests r))).
Proof.
  destruct (handleAdmin_after_sweep (λ _, "") 102000
              {[ "c1" := admitted [40000; 100000] ]} "c1"
              (summarize (λ _, "") (admitted [100000])))
    as (r & Hk & Hn & _).
  - vm_compute. reflexivity.
  - exists r. split; [exact Hk|exact Hn].
Defined.

Lemma handleAdmin_snapshot_witness :
  ∃ s, (handleAdmin (λ _, "") (run (sampleRun 3) ∅).1).2 !! "c1" = Some s
       ∧ active_requests_in_window s ≤ MAX_REQUESTS.
Proof.
  pose proof (proj2 (handleAdmin_snapshot (λ _, "") (run (sampleRun 3) ∅).1
                       "c1")) as H.
  assert ((run (sampleRun 3) ∅).1 !! "c1"
          = Some {| requests := [100000; 100001; 100002; 100003; 100004;
                                 100005; 100006; 100007; 100008; 100009];
                    violations := 3;
                    banned := true;
                    bannedUntil := 402002 |}) as Hk
    by (vm_compute; reflexivity).
  rewrite Hk in H.
  destruct H as (s & Hs & _ & _ & _ & _ & _ & Hreach).
  exists s. split; [exact Hs|]. apply Hreach. by exists (sampleRun 3).
Defined.

(** ** The sample endpoint *)

Lemma handleSampleAPI_eq clientKey current pruneNow (clientStore : Store) :
  handleSampleAPI clientKey current pruneNow clientStore
  = let result := (checkRateLimit clientKey current pruneNow clientStore).2 in
    let headers :=
      [("X-RateLimit-Limit", MAX_REQUESTS);
       ("X-RateLimit-Remaining", remaining result);
       ("X-RateLimit-Reset", resetIn result)] in
    ((checkRateLimit clientKey current pruneNow clientStore).1,
     if allowed result then
       {| apiHeaders := headers;
          apiStatus := 200;
          apiBody :=
            ApiSuccess "Hello from the rate-limited API endpoint!" clientKey
              (remaining result) (resetIn result) |}
     else
       {| apiHeaders := headers ++ [("Retry-After", resetIn result)];
          apiStatus := status result;
          apiBody :=
            ApiDenied (message result) (remaining result) (resetIn result)
              (match reported_violations result with
               | Some v => if v =? 0 then ViolationsNA else ViolationsCount v
               | None => ViolationsNA
               end) |}).
Proof.
  unfold handleSampleAPI.
  destruct (checkRateLimit clientKey current pruneNow clientStore) as [s d].
  simpl. by destruct (allowed d).
Qed.



Lemma windowDecision_reported current pruneNow record :
  0 ≤ violations record →
  let d := (windowDecision current pruneNow record).2 in
  (status d = 429 →
   ∃ n, reported_violations d = Some n ∧ 1 ≤ n < BAN_THRESHOLD)
  ∧ (status d = 403 → reported_violations d = None).
Proof.
  intros Hv. unfold windowDecision.
  destruct (MAX_REQUESTS <=? _);
    [destruct (Z.leb_spec BAN_THRESHOLD (violations record + 1))|];
    simpl; (split; [|done]); try done.
  intros _. eexists. split; [reflexivity|lia].
Qed.

Lemma clientStep_reported current pruneNow stored :
  (∀ r, stored = Some r → violationsBounded r) →
  let d := (clientStep current pruneNow stored).2 in
  (status d = 429 →
   ∃ n, reported_violations d = Some n ∧ 1 ≤ n < BAN_THRESHOLD)
  ∧ (status d = 403 → reported_violations d = None).
Proof.
  intros Hstored. unfold clientStep.
  destruct stored as [r|]; cbn [default from_option]; unfold id.
  - specialize (Hstored r eq_refl). unfold violationsBounded in Hstored.
    destruct (banned r) eqn:Hb; cbn [andb].
    + destruct (current <? bannedUntil r); [by split|].
      by apply windowDecision_reported.
    + apply windowDecision_reported. lia.
  - change (banned initRecord) with false. cbn [andb].
    by apply windowDecision_reported.
Qed.

(** X17: in a store reachable from the empty one, the body of a 429 of the
    sample endpoint carries the client's violations as a number between 1
    and [BAN_THRESHOLD - 1], and the body of a 403 carries ["N/A"]. *)
Theorem handleSampleAPI_violations clientKey current pruneNow
    (clientStore : Store) :
  reachable clientStore →
  let resp := (handleSampleAPI clientKey current pruneNow clientStore).2 in
  (apiStatus resp = 429 →
   ∃ error rem reset n,
     apiBody resp = ApiDenied error rem reset (ViolationsCount n)
     ∧ 1 ≤ n < BAN_THRESHOLD)
  ∧ (apiStatus resp = 403 →
     ∃ error rem reset,
       apiBody resp = ApiDenied error rem reset ViolationsNA).
Proof.
  intros [calls <-] resp. subst resp. rewrite handleSampleAPI_eq. cbv zeta.
  cbn [snd].
  pose proof (checkRateLimit_kinds clientKey current pruneNow
                (run calls ∅).1) as Hkinds. cbv zeta in Hkinds.
  rewrite checkRateLimit_clientStep in *. cbn [snd] in *.
  destruct (clientStep_reported current pruneNow
              ((run calls ∅).1 !! clientKey)) as [H429 H403].
  { intros r Hk. eapply (run_bounded calls ∅); [|exact Hk].
    intros k' r'. by rewrite lookup_empty. }
  cbv zeta in H429, H403.
  set (d := (clientStep current pruneNow
               ((run calls ∅).1 !! clientKey)).2) in *.
  destruct Hkinds as [[Ha Hs]|[[Ha Hs]|[Ha Hs]]]; rewrite Ha; simpl;
    rewrite ?Hs; (split; [intros Hst|intros Hst]); try done.
  - destruct (H429 Hs) as (n & Hn & Hbound). rewrite Hn.
    destruct (Z.eqb_spec n 0); [lia|]. by eexists _, _, _, n.
  - rewrite (H403 Hs). by eexists _, _, _.
Qed.

Lemma handleSampleAPI_violations_witness :
  ∃ error rem reset n,
    apiBody (handleSampleAPI "c1" 102001 102001 (run (sampleRun 1) ∅).1).2
    = ApiDenied error rem reset (ViolationsCount n)
    ∧ 1 ≤ n < BAN_THRESHOLD.
Proof.
  refine (proj1 (handleSampleAPI_violations "c1" 102001 102001
                   (run (sampleRun 1) ∅).1 _) _).
  - by exists (sampleRun 1).
  - vm_compute. reflexivity.
Defined.

(** ** The client key *)

Lemma takeUntil_no_sep sep l : sep ∉ takeUntil sep l.
Proof.
  induction l as [|c rest IH]; simpl; [by apply not_elem_of_nil|].
  case_decide; [by apply not_elem_of_nil|].
  apply not_elem_of_cons. split; [congruence|done].
Qed.

Lemma takeUntil_prefix sep l : takeUntil sep l `prefix_of` l.
Proof.
  induction l as [|c rest IH]; simpl; [done|].
  case_decide; [apply prefix_nil|by apply prefix_cons].
Qed.

Lemma takeUntil_id sep l : sep ∉ l → takeUntil sep l = l.
Proof.
  induction l as [|c rest IH]; simpl; [done|].
  intros Hnot. apply not_elem_of_cons in Hnot as [Hne Hnot].
  rewrite decide_False by congruence. by rewrite IH.
Qed.

Lemma dropSpaces_split l :
  ∃ spaces, l = spaces ++ dropSpaces l
            ∧ Forall (λ c, js_space c = true) spaces.
Proof.
  induction l as [|c rest (spaces & Heq & Hall)]; simpl.
  - by exists [].
  - destruct (js_space c) eqn:Hc.
    + exists (c :: spaces). split; [by rewrite Heq at 1|by constructor].
    + by exists [].
Qed.

Lemma dropSpaces_head l c :
  head (dropSpaces l) = Some c → js_space c = false.
Proof.
  induction l as [|c' rest IH]; simpl; [done|].
  destruct (js_space c') eqn:Hc; [done|]. by intros [= <-].
Qed.

Lemma dropSpaces_id l :
  (∀ c, head l = Some c → js_space c = false) → dropSpaces l = l.
Proof.
  destruct l as [|c rest]; simpl; [done|].
  intros Hhd. by rewrite (Hhd c eq_refl).
Qed.

Lemma dropSpaces_last l c :
  last (dropSpaces l) = Some c → last l = Some c.
Proof.
  destruct (dropSpaces_split l) as (spaces & Heq & _).
  intros Hlast. rewrite Heq.
  destruct (dropSpaces l) as [|c' l'] eqn:Hd; [done|].
  rewrite last_app. by rewrite Hlast.
Qed.

Lemma dropSpaces_nil l :
  dropSpaces l = [] ↔ Forall (λ c, js_space c = true) l.
Proof.
  induction l as [|c rest IH]; simpl; [done|].
  destruct (js_space c) eqn:Hc.
  - rewrite IH. split; [by constructor|by inversion 1].
  - split; [done|]. inversion 1; congruence.
Qed.

Lemma String_trim_trimmed l : trimmed (String_trim l).
Proof.
  unfold String_trim, trimmed. split; intros c.
  - rewrite head_reverse. intros Hlast.
    apply dropSpaces_last in Hlast. rewrite last_reverse in Hlast.
    by apply dropSpaces_head in Hlast.
  - rewrite last_reverse. apply dropSpaces_head.
Qed.

Lemma String_trim_id l : trimmed l → String_trim l = l.
Proof.
  intros [Hhd Hlast]. unfold String_trim.
  rewrite (dropSpaces_id l) by done.
  rewrite dropSpaces_id; [apply reverse_involutive|].
  intros c. rewrite head_reverse. apply Hlast.
Qed.

Lemma String_trim_split l :
  ∃ before after,
    l = before ++ String_trim l ++ after
    ∧ Forall (λ c, js_space c = true) before
    ∧ Forall (λ c, js_space c = true) after.
Proof.
  unfold String_trim.
  destruct (dropSpaces_split l) as (before & Heq & Hbefore).
  destruct (dropSpaces_split (reverse (dropSpaces l)))
    as (after & Heq' & Hafter).
  exists before, (reverse after). split_and!; [|done|].
  - rewrite Heq at 1. f_equal.
    rewrite <- reverse_app, <- Heq'. by rewrite reverse_involutive.
  - by apply Forall_reverse.
Qed.

Lemma String_trim_nil l :
  String_trim l = [] ↔ Forall (λ c, js_space c = true) l.
Proof.
  split.
  - intros Hnil. destruct (String_trim_split l) as (b & a & Heq & Hb & Ha).
    rewrite Heq, Hnil. by apply Forall_app.
  - intros Hall. unfold String_trim.
    apply dropSpaces_nil in Hall. by rewrite Hall.
Qed.

(** X18: without an [x-forwarded-for] header, or with an empty one,
    [getClientKey] returns the socket address.  Otherwise it never looks at
    the socket address: the key is a piece of the header, before its first
    comma, from which exactly the surrounding white space is cut; so it holds
    no comma and neither starts nor ends with white space, and it is the
    empty string exactly when the header holds only white space before its
    first comma. *)
Theorem getClientKey_shape forwarded remoteAddress :
  match forwarded with
  | None => getClientKey forwarded remoteAddress = remoteAddress
  | Some f =>
      if decide (f = "") then
        getClientKey forwarded remoteAddress = remoteAddress
      else
        ∃ key before after,
          getClientKey forwarded remoteAddress = Some key
          ∧ takeUntil "," (String.list_ascii_of_string f)
            = before ++ String.list_ascii_of_string key ++ after
          ∧ Forall (λ c, js_space c = true) before
          ∧ Forall (λ c, js_space c = true) after
          ∧ (("," : Ascii.ascii) ∉ String.list_ascii_of_string key)
          ∧ trimmed (String.list_ascii_of_string key)
          ∧ (key = ""
             ↔ Forall (λ c, js_space c = true)
                 (takeUntil "," (String.list_ascii_of_string f)))
  end.
Proof.
  destruct forwarded as [f|]; [|done]. unfold getClientKey.
  case_decide; [done|].
  set (field := takeUntil "," (String.list_ascii_of_string f)).
  destruct (String_trim_split field) as (before & after & Heq & Hb & Ha).
  exists (String.string_of_list_ascii (String_trim field)), before, after.
  rewrite String.list_ascii_of_string_of_list_ascii.
  split_and!; [done|done|done|done| |apply String_trim_trimmed|].
  - intros Hin. apply (takeUntil_no_sep "," (String.list_ascii_of_string f)).
    fold field. rewrite Heq. set_solver.
  - rewrite <- String_trim_nil. split.
    + intros Hkey.
      apply (f_equal String.list_ascii_of_string) in Hkey.
      by rewrite String.list_ascii_of_string_of_list_ascii in Hkey.
    + by intros ->.
Qed.

(** X19: a key that [getClientKey] took from a header is a fixed point: sent
    back as the header, it comes out unchanged, unless it is empty. *)
Theorem getClientKey_again f remoteAddress remoteAddress' key :
  f ≠ "" →
  getClientKey (Some f) remoteAddress = Some key →
  key ≠ "" →
  getClientKey (Some key) remoteAddress' = Some key.
Proof.
  intros Hf Hkey Hne. unfold getClientKey in *.
  rewrite decide_False in Hkey by done. injection Hkey as <-.
  rewrite decide_False by done. f_equal.
  rewrite String.list_ascii_of_string_of_list_ascii.
  set (field := takeUntil "," (String.list_ascii_of_string f)).
  rewrite takeUntil_id.
  - by rewrite String_trim_id by apply String_trim_trimmed.
  - destruct (String_trim_split field) as (before & after & Heq & _).
    intros Hin. apply (takeUntil_no_sep "," (String.list_ascii_of_string f)).
    fold field. rewrite Heq. set_solver.
Qed.

Lemma getClientKey_again_witness :
  getClientKey (Some "10.0.0.7") None = Some "10.0.0.7".
Proof.
  apply (getClientKey_again "  10.0.0.7 , 192.168.1.1" (Some "127.0.0.1")).
  - discriminate.
  - vm_compute. reflexivity.
  - discriminate.
Defined.

(** ** Routing *)

Lemma list_ascii_of_string_app s1 s2 :
  String.list_ascii_of_string (s1 +:+ s2)
  = String.list_ascii_of_string s1 ++ String.list_ascii_of_string s2.
Proof. induction s1 as [|c s1 IH]; simpl; [done|by rewrite IH]. Qed.

Lemma stripTrailingSlashes_snoc l :
  stripTrailingSlashes (l ++ ["/"%char]) = stripTrailingSlashes l.
Proof.
  induction l as [|c rest IH]; simpl; [done|]. by rewrite IH.
Qed.

Lemma stripTrailingSlashes_last l :
  last (stripTrailingSlashes l) ≠ Some "/"%char.
Proof.
  induction l as [|c rest IH]; simpl; [done|].
  destruct (stripTrailingSlashes rest) as [|c' l'] eqn:Hs.
  - case_decide; simpl; [done|congruence].
  - by rewrite last_cons_cons.
Qed.

Lemma stripTrailingSlashes_id l :
  last l ≠ Some "/"%char → stripTrailingSlashes l = l.
Proof.
  induction l as [|c rest IH]; simpl; [done|].
  destruct rest as [|c' rest'].
  - simpl. intros Hc. rewrite decide_False; [done|congruence].
  - rewrite last_cons_cons. intros Hlast. rewrite IH by done. done.
Qed.

Lemma afterPrefix_Some prefix l rest :
  afterPrefix prefix l = Some rest ↔ l = prefix ++ rest.
Proof.
  revert l. induction prefix as [|p prefix IH]; intros l; simpl.
  - split; [by intros [= ->]|by intros ->].
  - destruct l as [|c l]; [done|]. case_decide as Hpc.
    + subst c. rewrite IH. split; [by intros ->|by intros [= ->]].
    + split; [done|]. intros [= -> _]. done.
Qed.

Lemma matchAfter_Some prefix pathname captured :
  matchAfter prefix pathname = Some captured →
  pathname = prefix +:+ captured
  ∧ captured ≠ ""
  ∧ Forall (λ c, js_line_terminator c = false)
      (String.list_ascii_of_string captured).
Proof.
  unfold matchAfter.
  destruct (afterPrefix _ _) as [rest|] eqn:Hrest; [|done].
  apply afterPrefix_Some in Hrest.
  destruct (bool_decide (rest ≠ [])) eqn:Hne; [|done].
  destruct (forallb _ rest) eqn:Hall; [|done]. simpl. intros [= <-].
  apply bool_decide_eq_true in Hne.
  rewrite String.list_ascii_of_string_of_list_ascii. split_and!.
  - rewrite <- (String.string_of_list_ascii_of_string pathname), Hrest.
    rewrite <- (String.list_ascii_of_string_of_list_ascii rest) at 1.
    rewrite <- list_ascii_of_string_app.
    by rewrite String.string_of_list_ascii_of_string.
  - intros Hnil. apply Hne.
    apply (f_equal String.list_ascii_of_string) in Hnil.
    by rewrite String.list_ascii_of_string_of_list_ascii in Hnil.
  - apply Forall_forall. intros c Hc.
    rewrite forallb_forall in Hall. apply negb_true_iff, Hall.
    by apply list_elem_of_In.
Qed.

Lemma matchAfter_prefix prefix key :
  key ≠ "" →
  Forall (λ c, js_line_terminator c = false)
    (String.list_ascii_of_string key) →
  matchAfter prefix (prefix +:+ key) = Some key.
Proof.
  intros Hne Hall. unfold matchAfter.
  rewrite list_ascii_of_string_app.
  rewrite (proj2 (afterPrefix_Some _ _ (String.list_ascii_of_string key)))
    by done.
  rewrite bool_decide_eq_true_2.
  - assert (forallb (λ c, negb (js_line_terminator c))
              (String.list_ascii_of_string key) = true) as ->.
    { apply forallb_forall. intros c Hc. apply negb_true_iff.
      eapply Forall_forall in Hall; [exact Hall|]. by apply list_elem_of_In. }
    simpl. by rewrite String.string_of_list_ascii_of_string.
  - intros Hnil. apply Hne.
    rewrite <- (String.string_of_list_ascii_of_string key). by rewrite Hnil.
Qed.

(** X20: trailing slashes of the path do not matter to the routing. *)
Theorem route_trailing_slash rawPathname method :
  route (rawPathname +:+ "/") method = route rawPathname method.
Proof.
  unfold route. rewrite list_ascii_of_string_app. simpl.
  by rewrite stripTrailingSlashes_snoc.
Qed.

(** X21: a route is only taken with its own method: the sample endpoint and
    the two read-only handlers with GET, unban with POST, reset and
    reset-all with DELETE; so a GET request never reaches a handler that
    changes the store by administration, and a request with any other method
    is not found. *)
Theorem route_method rawPathname method :
  match route rawPathname method with
  | RouteApi | RouteStatus | RouteAdmin => method = "GET"
  | RouteUnban _ => method = "POST"
  | RouteReset _ | RouteResetAll => method = "DELETE"
  | RouteNotFound => True
  end.
Proof.
  unfold route.
  repeat (case_match; simplify_eq/=; try done);
    repeat match goal with
      | H : _ && _ = true |- _ => apply andb_true_iff in H as [? ?]
      | H : bool_decide _ = true |- _ => apply bool_decide_eq_true in H
      end; done.
Qed.

(** X22: the unban and reset routes capture a segment that is not empty,
    does not end with a slash and holds no line terminator, and the path
    without its trailing slashes is the route's prefix followed by that
    segment; conversely every such segment is captured unchanged from the
    path made of the prefix and the segment. *)
Theorem route_captures rawPathname method key :
  (route rawPathname method = RouteUnban key →
   capturable key
   ∧ stripTrailingSlashes (String.list_ascii_of_string rawPathname)
     = String.list_ascii_of_string ("/admin/unban/" +:+ key))
  ∧ (route rawPathname method = RouteReset key →
     capturable key
     ∧ stripTrailingSlashes (String.list_ascii_of_string rawPathname)
       = String.list_ascii_of_string ("/admin/reset/" +:+ key))
  ∧ (capturable key →
     route ("/admin/unban/" +:+ key) "POST" = RouteUnban key
     ∧ route ("/admin/reset/" +:+ key) "DELETE" = RouteReset key).
Proof.
  assert (∀ prefix captured,
            prefix ≠ "" →
            matchAfter prefix
              (if decide (String.string_of_list_ascii
                            (stripTrailingSlashes
                               (String.list_ascii_of_string rawPathname))
                          = "")
               then "/"
               else String.string_of_list_ascii
                      (stripTrailingSlashes
                         (String.list_ascii_of_string rawPathname)))
            = Some captured →
            capturable captured
            ∧ stripTrailingSlashes (String.list_ascii_of_string rawPathname)
              = String.list_ascii_of_string (prefix +:+ captured)) as Hcap.
  { intros prefix captured Hprefix Hm.
    apply matchAfter_Some in Hm as (Hpath & Hne & Hall).
    pose proof (stripTrailingSlashes_last
                  (String.list_ascii_of_string rawPathname)) as Hlast.
    case_decide as Hempty.
    - exfalso. destruct prefix as [|c prefix]; [done|].
      simpl in Hpath. injection Hpath as <- Hrest.
      destruct prefix; [|done]. change ("" = captured) in Hrest. congruence.
    - apply (f_equal String.list_ascii_of_string) in Hpath.
      rewrite String.list_ascii_of_string_of_list_ascii in Hpath.
      split; [|done]. split_and!; [done| |done].
      rewrite Hpath, list_ascii_of_string_app in Hlast.
      intros Hl. apply Hlast.
      destruct (String.list_ascii_of_string captured) as [|c l] eqn:Hc;
        [done|].
      by rewrite last_app, Hl. }
  split_and!.
  - unfold route. intros Hroute.
    repeat (case_match; simplify_eq/=; try done).
    by apply (Hcap "/admin/unban/").
  - unfold route. intros Hroute.
    repeat (case_match; simplify_eq/=; try done);
      by apply (Hcap "/admin/reset/").
  - intros (Hne & Hlast & Hall).
    assert (∀ prefix : string,
              prefix ≠ "" →
              last (String.list_ascii_of_string (prefix +:+ key))
              ≠ Some "/"%char) as Hl.
    { intros prefix _. rewrite list_ascii_of_string_app.
      destruct (String.list_ascii_of_string key) as [|c l] eqn:Hc.
      - exfalso. apply Hne.
        rewrite <- (String.string_of_list_ascii_of_string key).
        by rewrite Hc.
      - rewrite last_app.
        destruct (last (c :: l)) eqn:Hlc; [done|by apply last_None in Hlc]. }
    split.
    + unfold route.
      rewrite stripTrailingSlashes_id by (by apply Hl).
      rewrite String.string_of_list_ascii_of_string.
      rewrite decide_False by done.
      rewrite !bool_decide_eq_false_2 by done. simpl.
      by rewrite matchAfter_prefix.
    + unfold route.
      rewrite stripTrailingSlashes_id by (by apply Hl).
      rewrite String.string_of_list_ascii_of_string.
      rewrite decide_False by done.
      rewrite !bool_decide_eq_false_2 by done. simpl.
      by rewrite matchAfter_prefix.
Qed.

Lemma route_captures_witness :
  route "/admin/unban/10.0.0.7///" "POST" = RouteUnban "10.0.0.7"
  ∧ capturable "10.0.0.7"
  ∧ route "/admin/reset/10.0.0.7" "DELETE" = RouteReset "10.0.0.7".
Proof.
  assert (route "/admin/unban/10.0.0.7///" "POST" = RouteUnban "10.0.0.7")
    as Hroute by (vm_compute; reflexivity).
  destruct (route_captures "/admin/unban/10.0.0.7///" "POST" "10.0.0.7")
    as (Hunban & _ & Hback).
  destruct (Hunban Hroute) as [Hcap _].
  destruct (Hback Hcap) as [_ Hreset].
  by split_and!.
Defined.

(** ** Administrative overrides *)




(** ** The log line of the cleanup *)

(** X24: the cleanup callback prints its line exactly when the pass evicted
    at least one record; it prints nothing exactly when every key of the
    store is still there after the pass. *)
Theorem cleanupLog_silent now (clientStore : Store) :
  cleanupLog (sweep now clientStore).2 = None
  ↔ ∀ k, is_Some (clientStore !! k) →
         is_Some ((sweep now clientStore).1 !! k).
Proof.
  unfold sweep.
  destruct (cleanupPass_spec now (λ _, now) clientStore)
    as (Hlook & Hn & _).
  simpl in Hlook, Hn. unfold cleanupLog. rewrite Hn.
  set (E := λ kr : string * ClientRecord, evicts now now kr.2) in *.
  split.
  - intros Hlog k [r Hk].
    destruct (Z.ltb_spec 0 (Z.of_nat (size (filter E clientStore))))
      as [?|Hzero]; [done|].
    assert (filter E clientStore = ∅) as Hempty
      by (apply map_size_empty_inv; lia).
    rewrite Hlook, Hk. rewrite decide_False; [by eexists|].
    intros He.
    assert (filter E clientStore !! k = Some r) as Hin
      by (by apply map_lookup_filter_Some).
    by rewrite Hempty, lookup_empty in Hin.
  - intros Hkept.
    assert (filter E clientStore = ∅) as ->.
    { apply map_eq. intros k. rewrite lookup_empty.
      apply map_lookup_filter_None. right. intros r Hk He.
      destruct (Hkept k) as [r' Hr']; [by eexists|].
      rewrite Hlook, Hk in Hr'. by rewrite decide_True in Hr'. }
    by rewrite map_size_empty.
Qed.

(** ** Waiting *)

Lemma clientStep_banned current pruneNow record :
  banned record = true → current < bannedUntil record →
  clientStep current pruneNow (Some record)
  = (record,
     {| allowed := false;
        status := 403;
        remaining := 0;
        resetIn := Math_ceil_div (bannedUntil record - current) 1000;
        reported_violations := None;
        message := "Client is banned. Too many violations." |}).
Proof.
  intros Hb Hlt. unfold clientStep. cbn [default from_option]. unfold id.
  rewrite Hb. cbn [andb].
  by destruct (Z.ltb_spec current (bannedUntil record)); [|lia].
Qed.

Lemma clientStep_expired current pruneNow record :
  banned record = true → bannedUntil record ≤ current →
  clientStep current pruneNow (Some record)
  = windowDecision current pruneNow initRecord.
Proof.
  intros Hb Hle. unfold clientStep. cbn [default from_option]. unfold id.
  rewrite Hb. cbn [andb].
  by destruct (Z.ltb_spec current (bannedUntil record)); [lia|].
Qed.

Lemma clientStep_open current pruneNow record :
  banned record = false →
  clientStep current pruneNow (Some record)
  = windowDecision current pruneNow record.
Proof.
  intros Hb. unfold clientStep. cbn [default from_option]. unfold id.
  by rewrite Hb.
Qed.

Lemma clientStep_unknown current pruneNow :
  clientStep current pruneNow None
  = windowDecision current pruneNow initRecord.
Proof. reflexivity. Qed.

Lemma windowDecision_init_allowed current pruneNow :
  allowed (windowDecision current pruneNow initRecord).2 = true.
Proof. by rewrite windowDecision_allowed by (by vm_compute). Qed.

Lemma clientStep_retry now now' stored :
  (∀ r, stored = Some r →
        Z.of_nat (length (requests r)) ≤ MAX_REQUESTS
        ∧ Forall (λ t, t ≤ now) (requests r)) →
  allowed (clientStep now now stored).2 = false →
  now + 1000 * resetIn (clientStep now now stored).2 ≤ now' →
  allowed (clientStep now' now' (Some (clientStep now now stored).1)).2
  = true.
Proof.
  intros Hrec. destruct stored as [r|];
    [|rewrite clientStep_unknown, windowDecision_init_allowed; done].
  destruct (Hrec r eq_refl) as [Hcap Hpast].
  destruct (banned r) eqn:Hb.
  - destruct (Z.lt_ge_cases now (bannedUntil r)) as [Hlt|Hge].
    + rewrite (clientStep_banned now now r) by done. cbn [fst snd resetIn].
      intros _ Hwait.
      pose proof (Math_ceil_div_spec (bannedUntil r - now) 1000 ltac:(lia)).
      rewrite clientStep_expired by (done || lia).
      apply windowDecision_init_allowed.
    + rewrite (clientStep_expired now now r),
        windowDecision_init_allowed by done. done.
  - rewrite (clientStep_open now now r) by done.
    pose proof (length_filter (λ t, now - WINDOW_MS < t) (requests r))
      as Hfl. fold (inWindow now (requests r)) in Hfl.
    destruct (Z.lt_ge_cases (Z.of_nat (length (inWindow now (requests r))))
                MAX_REQUESTS) as [Hfree|Hfull];
      [by rewrite windowDecision_allowed|].
    destruct (Z.le_gt_cases BAN_THRESHOLD (violations r + 1)) as [Hv|Hv].
    + rewrite windowDecision_ban by done. cbn [fst snd resetIn].
      intros _ Hwait.
      rewrite clientStep_expired; [apply windowDecision_init_allowed|done|].
      cbn [bannedUntil]. revert Hwait. by vm_compute.
    + rewrite windowDecision_limited by (done || lia).
      cbn [fst snd resetIn]. intros _ Hwait.
      rewrite clientStep_open by (by rewrite Hb).
      rewrite windowDecision_allowed; [done|]. cbn [requests].
      destruct (inWindow now (requests r)) as [|h rest] eqn:Hin;
        [simpl in Hfull; unfold MAX_REQUESTS in Hfull; lia|].
      assert (h ∈ inWindow now (requests r)) as Hh by (rewrite Hin; left).
      assert (h ≤ now) as Hhnow.
      { apply inWindow_elem in Hh as [Hh _].
        by eapply Forall_forall in Hpast. }
      assert (¬ now' - WINDOW_MS < h) as Hgone.
      { pose proof (Math_ceil_div_spec
                      (js_or (Some h) now + WINDOW_MS - now) 1000
                      ltac:(lia)) as Hceil.
        simpl in Hwait, Hceil.
        destruct (Z.eqb_spec h 0); unfold WINDOW_MS in *; lia. }
      pose proof (length_filter_lt (λ t, now' - WINDOW_MS < t)
                    (h :: rest) h ltac:(left) Hgone) as Hlt.
      fold (inWindow now' (h :: rest)) in Hlt. lia.
Qed.

(** X25: the advertised waiting time is honest.  When a call is denied, for
    a record that holds at most [MAX_REQUESTS] timestamps, none of them in
    the future, a next call of the same client [resetIn] seconds later or
    more is allowed. *)
Theorem retry_after_honest clientKey now now' (clientStore : Store) :
  (∀ r, clientStore !! clientKey = Some r →
        Z.of_nat (length (requests r)) ≤ MAX_REQUESTS
        ∧ Forall (λ t, t ≤ now) (requests r)) →
  allowed (evaluate clientKey now clientStore).2 = false →
  now + 1000 * resetIn (evaluate clientKey now clientStore).2 ≤ now' →
  Allowed (evaluate clientKey now' (evaluate clientKey now clientStore).1).2.
Proof.
  intros Hrec. unfold evaluate.
  pose proof (checkRateLimit_kinds clientKey now' now'
                (checkRateLimit clientKey now now clientStore).1) as Hkinds.
  cbv zeta in Hkinds. revert Hkinds.
  rewrite (checkRateLimit_clientStep clientKey now' now').
  rewrite (checkRateLimit_clientStep clientKey now now). cbn [fst snd].
  rewrite lookup_insert_eq.
  intros Hkinds Hdenied Hwait.
  pose proof (clientStep_retry now now' (clientStore !! clientKey)
                Hrec Hdenied Hwait) as Hallowed.
  destruct Hkinds as [?|[[Hd _]|[Hd _]]]; [done|congruence|congruence].
Qed.

Lemma retry_after_honest_witness :
  Allowed (evaluate "c1" 160000
             (evaluate "c1" 102000 {[ "c1" := fullSample 0 ]}).1).2.
Proof.
  apply (retry_after_honest "c1" 102000 160000 {[ "c1" := fullSample 0 ]}).
  - intros r Hk. vm_compute in Hk. injection Hk as <-.
    split; [vm_compute; discriminate|].
    repeat constructor; vm_compute; discriminate.
  - vm_compute. reflexivity.
  - vm_compute. discriminate.
Defined.

(** X26: a quiet window restores the quota but not the violations.  For a
    record that is not banned and whose timestamps are all at least
    [WINDOW_MS] old, the call is allowed with
    [remaining = MAX_REQUESTS - 1] and the record keeps its violations,
    whatever their number and however long the client was quiet. *)
Theorem quiet_window clientKey now (clientStore : Store) record :
  clientStore !! clientKey = Some record →
  banned record = false →
  Forall (λ t, t + WINDOW_MS ≤ now) (requests record) →
  ∃ d, evaluate clientKey now clientStore
       = (<[clientKey := {| requests := [now];
                            violations := violations record;
                            banned := false;
                            bannedUntil := bannedUntil record |}]>
            clientStore, d)
       ∧ Allowed d
       ∧ remaining d = MAX_REQUESTS - 1.
Proof.
  intros Hk Hb Hold.
  assert (inWindow now (requests record) = []) as Hnone.
  { apply inWindow_none. eapply Forall_impl; [exact Hold|].
    intros t Ht. simpl in Ht. lia. }
  rewrite (evaluate_entry clientKey now clientStore record)
    by (by apply entry_known).
  rewrite windowDecision_allowed by (rewrite Hnone; by vm_compute).
  rewrite Hnone, Hb. eexists. split; [reflexivity|]. by repeat split.
Qed.

Lemma quiet_window_witness :
  ∃ d, evaluate "c1" 9000000 {[ "c1" := fullSample 2 ]}
       = (<[ "c1" := {| requests := [9000000];
                        violations := 2;
                        banned := false;
                        bannedUntil := 0 |}]> {[ "c1" := fullSample 2 ]}, d)
       ∧ Allowed d
       ∧ remaining d = MAX_REQUESTS - 1.
Proof.
  apply (quiet_window "c1" 9000000 {[ "c1" := fullSample 2 ]} (fullSample 2)).
  - vm_compute. reflexivity.
  - reflexivity.
  - repeat constructor; vm_compute; discriminate.
Defined.
